(** * Patsy: stateful-transform scheduling and token-level code analysis

    A shallow embedding of [patsy/eval.py]: the layered variable lookup
    ([VarLookupDict]), the token annotator ([annotated_tokens]), the call
    rewriter ([replace_bare_funcalls]), the call capturer
    ([_FuncallCapturer], [capture_obj_method_calls]) and the pass scheduler
    and streaming protocol of [EvalFactor].

    Python dictionaries with string keys are [gmap string _], Python sets of
    names are [gset string], exceptions are an explicit error type. *)

From Stdlib Require Import ZArith Ascii String.
From stdpp Require Import gmap strings list fin_maps fin_sets pretty.

#[local] Set Warnings "-register-all,-clear-no-such-hyp".

(** ** Exceptions and results *)

(** The exceptions the embedded code can raise. *)
Inductive exn : Type :=
  | PatsyError (msg : string)
  | NameError (name : string)
  | KeyError (key : string)
  | IndexError
  | AssertionError
  | AttributeError (name : string)
  | SyntaxError
  | TypeError
  | ValueError.

(** What running a piece of code gives: a value, an exception, or
    [Unfinished] when the bounded model of a [while] loop or of a recursion
    was given too few steps. *)
Inductive result (A : Type) : Type :=
  | Ok (a : A)
  | Raise (e : exn)
  | Unfinished.
Arguments Ok {A} a.
Arguments Raise {A} e.
Arguments Unfinished {A}.

Global Instance result_ret : MRet result := λ A a, Ok a.
Global Instance result_bind : MBind result := λ A B k r,
  match r with
  | Ok a => k a
  | Raise e => Raise e
  | Unfinished => Unfinished
  end.

(** [assert c] *)
Definition assert (c : bool) : result unit :=
  if c then Ok tt else Raise AssertionError.

(** ** Tokens *)

(** The token types of Python's [tokenize] module that the code tests for. *)
Inductive token_type : Type := NAME | NUMBER | STRING | OP | ERRORTOKEN.

Global Instance token_type_eq_dec : EqDecision token_type.
Proof. solve_decision. Defined.

(** Where a token comes from: the code it was lexed from and its extent. *)
Record Origin : Type := mkOrigin {
  origin_code : string;
  origin_start : nat;
  origin_end : nat
}.

(** [(token_type, token, origin)], as yielded by [python_tokenize]. *)
Definition Token : Type := token_type * string * Origin.

Definition tok_type (t : Token) : token_type := t.1.1.
Definition tok_text (t : Token) : string := t.1.2.
Definition tok_origin (t : Token) : Origin := t.2.

(** The [props] dictionary of an annotated token; its two keys are fixed. *)
Record Props : Type := mkProps {
  bare_ref : bool;
  bare_funcall : bool
}.

(** [(token_type, token, origin, props)], as yielded by [annotated_tokens]. *)
Definition AnnotatedToken : Type := token_type * string * Origin * Props.

Definition atok_type (a : AnnotatedToken) : token_type := a.1.1.1.
Definition atok_text (a : AnnotatedToken) : string := a.1.1.2.
Definition atok_origin (a : AnnotatedToken) : Origin := a.1.2.
Definition atok_props (a : AnnotatedToken) : Props := a.2.

(** ** PushbackAdapter

    Modelled from the spec: [patsy.util.PushbackAdapter] is not among the
    sources.  The annotator reads its token stream with one-token lookahead;
    the adapter over a finite stream is the list of tokens still to come. *)
Definition has_more (it : list Token) : bool :=
  match it with
  | [] => false
  | _ :: _ => true
  end.

(** [it.peek()[1] == s], used only after [has_more] answered true. *)
Definition peek_text_is (it : list Token) (s : string) : bool :=
  match it with
  | [] => false
  | t :: _ => String.eqb (tok_text t) s
  end.

(** ** annotated_tokens *)

(** The body of the [for] loop of [annotated_tokens], with [prev_was_dot]
    threaded through the iterations. *)
Fixpoint annotate (prev_was_dot : bool) (it : list Token) : list AnnotatedToken :=
  match it with
  | [] => []
  | (token_type, token, origin) :: it' =>
      let bare_ref := negb prev_was_dot && bool_decide (token_type = NAME) in
      let bare_funcall := bare_ref && has_more it' && peek_text_is it' "(" in
      (token_type, token, origin, mkProps bare_ref bare_funcall)
        :: annotate (String.eqb token ".") it'
  end.

Section Annotator.

(** [patsy.tokens.python_tokenize] is not among the sources; the functions
    of [eval.py] are embedded over an arbitrary tokenizer. *)
Variable python_tokenize : string → list Token.

Definition annotated_tokens (code : string) : list AnnotatedToken :=
  annotate false (python_tokenize code).

(** The [for] loop of [has_bare_variable_reference]. *)
Fixpoint any_bare_ref (names : gset string) (ats : list AnnotatedToken) : bool :=
  match ats with
  | [] => false
  | (_, token, _, props) :: ats' =>
      if bare_ref props && bool_decide (token ∈ names) then true
      else any_bare_ref names ats'
  end.

(** [has_bare_variable_reference(names, code)]; [names] is a set of names or
    a dictionary, of which [token in names] tests the keys. *)
Definition has_bare_variable_reference (names : gset string) (code : string) : bool :=
  any_bare_ref names (annotated_tokens code).

(** ** replace_bare_funcalls *)

(** [patsy.tokens.pretty_untokenize] is not among the sources either. *)
Variable pretty_untokenize : list (token_type * string) → string.

(** The [for] loop of [replace_bare_funcalls].  A Python [replacer] may
    close over mutable state ([new_name_maker] does): it is a function of
    the token and of that state [St], called once per replaced token, in
    token order. *)
Fixpoint replace_loop {St : Type} (replacer : string → St → string * St)
    (ats : list AnnotatedToken) (tokens : list (token_type * string)) (st : St)
    : list (token_type * string) * St :=
  match ats with
  | [] => (tokens, st)
  | (token_type, token, origin, props) :: ats' =>
      if bare_ref props && bare_funcall props then
        let '(token', st') := replacer token st in
        replace_loop replacer ats' (tokens ++ [(token_type, token')]) st'
      else
        replace_loop replacer ats' (tokens ++ [(token_type, token)]) st
  end.

Definition replace_bare_funcalls_st {St : Type} (code : string)
    (replacer : string → St → string * St) (st : St) : string * St :=
  let '(tokens, st') := replace_loop replacer (annotated_tokens code) [] st in
  (pretty_untokenize tokens, st').

(** [replace_bare_funcalls(code, replacer)] for a replacer without state. *)
Definition replace_bare_funcalls (code : string) (replacer : string → string) : string :=
  (replace_bare_funcalls_st code (λ token (_ : unit), (replacer token, tt)) tt).1.

(** ** _FuncallCapturer *)

Record FuncallCapturer : Type := mkCapturer {
  func : list string;
  tokens : list (token_type * string);
  paren_depth : Z;
  started : bool;
  done : bool
}.

(** [_FuncallCapturer.__init__] *)
Definition new_capturer (start_token_type : token_type) (start_token : string)
    : FuncallCapturer :=
  {| func := [start_token];
     tokens := [(start_token_type, start_token)];
     paren_depth := 0;
     started := false;
     done := false |}.

Definition string_in (s : string) (l : list string) : bool :=
  existsb (String.eqb s) l.

(** [_FuncallCapturer.add_token] *)
Definition add_token (self : FuncallCapturer) (token_type : token_type)
    (token : string) : result FuncallCapturer :=
  if done self then Ok self
  else
    let tokens' := tokens self ++ [(token_type, token)] in
    let depth1 :=
      if string_in token ["("; "{"; "["] then (paren_depth self + 1)%Z
      else paren_depth self in
    let depth2 :=
      if string_in token [")"; "}"; "]"] then (depth1 - 1)%Z else depth1 in
    _ ← assert (0 <=? depth2)%Z;
    '(started', func') ←
      (if negb (started self) then
         if String.eqb token "(" then Ok (true, func self)
         else
           _ ← assert (bool_decide (token_type = NAME) || String.eqb token ".");
           Ok (started self, func self ++ [token])
       else Ok (started self, func self));
    let done' := if started' && (depth2 =? 0)%Z then true else done self in
    Ok {| func := func'; tokens := tokens'; paren_depth := depth2;
          started := started'; done := done' |}.

(** ** capture_obj_method_calls *)

(** [for capturer in capturers: capturer.add_token(token_type, token)] *)
Fixpoint add_token_all (capturers : list FuncallCapturer) (token_type : token_type)
    (token : string) : result (list FuncallCapturer) :=
  match capturers with
  | [] => Ok []
  | capturer :: rest =>
      capturer' ← add_token capturer token_type token;
      rest' ← add_token_all rest token_type token;
      Ok (capturer' :: rest')
  end.

(** The outer [for] loop of [capture_obj_method_calls]. *)
Fixpoint capture_loop (obj_name : string) (ats : list AnnotatedToken)
    (capturers : list FuncallCapturer) : result (list FuncallCapturer) :=
  match ats with
  | [] => Ok capturers
  | (token_type, token, origin, props) :: ats' =>
      capturers' ← add_token_all capturers token_type token;
      if bare_ref props && String.eqb token obj_name then
        capture_loop obj_name ats' (capturers' ++ [new_capturer token_type token])
      else
        capture_loop obj_name ats' capturers'
  end.

Definition capture_obj_method_calls (obj_name code : string)
    : result (list (string * string)) :=
  capturers ← capture_loop obj_name (annotated_tokens code) [];
  Ok (map (λ capturer, (String.concat "" (func capturer),
                        pretty_untokenize (tokens capturer))) capturers).

End Annotator.

(** ** patsy.tokens

    The tokenizer and the normalizer live in [patsy/tokens.py], which is not
    among the sources.  The general results below hold for every tokenizer
    and normalizer; the worked examples need concrete ones. *)
Module PatsyTokens.

Definition is_name_start (c : ascii) : bool :=
  let n := nat_of_ascii c in
  ((65 <=? n) && (n <=? 90)) || ((97 <=? n) && (n <=? 122)) || (n =? 95).

Definition is_digit (c : ascii) : bool :=
  let n := nat_of_ascii c in (48 <=? n) && (n <=? 57).

Definition is_name_char (c : ascii) : bool := is_name_start c || is_digit c.

Definition is_blank (c : ascii) : bool :=
  let n := nat_of_ascii c in (n =? 32) || (n =? 9).

Definition two_char_ops : list string :=
  ["**"; "//"; "=="; "!="; "<="; ">="; "<<"; ">>"; "<>"].

(** The token being read: its type, its text so far and where it starts. *)
Inductive pending : Type :=
  | NoToken
  | Pending (ty : token_type) (text : string) (start : nat).

Definition snoc_char (s : string) (c : ascii) : string := s +:+ String c "".

Definition extends (cur : pending) (c : ascii) : bool :=
  match cur with
  | NoToken => false
  | Pending NAME _ _ => is_name_char c
  | Pending NUMBER _ _ => is_digit c || Ascii.eqb c "."
  | Pending OP text _ => string_in (snoc_char text c) two_char_ops
  | Pending _ _ _ => false
  end.

Definition flush (code : string) (cur : pending) (pos : nat) : list Token :=
  match cur with
  | NoToken => []
  | Pending ty text start => [(ty, text, mkOrigin code start pos)]
  end.

Definition start_token (c : ascii) (pos : nat) : pending :=
  if is_blank c then NoToken
  else if is_name_start c then Pending NAME (String c "") pos
  else if is_digit c then Pending NUMBER (String c "") pos
  else if string_in (String c "")
            ["("; ")"; "["; "]"; "{"; "}"; "."; ","; ":"; "+"; "-"; "*"; "/";
             "%"; "="; "<"; ">"; "!"; "&"; "|"; "^"; "~"]
       then Pending OP (String c "") pos
  else Pending ERRORTOKEN (String c "") pos.

Fixpoint lex (code rest : string) (pos : nat) (cur : pending) : list Token :=
  match rest with
  | EmptyString => flush code cur pos
  | String c rest' =>
      match cur with
      | Pending ty text start =>
          if extends cur c then
            lex code rest' (S pos) (Pending ty (snoc_char text c) start)
          else flush code cur pos ++ lex code rest' (S pos) (start_token c pos)
      | NoToken => lex code rest' (S pos) (start_token c pos)
      end
  end.

(** Modelled from the spec: [patsy.tokens.python_tokenize] is missing; the
    spec has it lex "an expression string (names, literals, operators,
    brackets, dot access, calls)".  This lexer covers names, numeric
    literals, operators, brackets and blanks on one line; any other
    character is an [ERRORTOKEN]. *)
Definition python_tokenize (code : string) : list Token :=
  lex code code 0 NoToken.

Definition binary_ops : list string :=
  ["+"; "-"; "*"; "/"; "%"; "**"; "//"; "=="; "!="; "<"; ">"; "<="; ">=";
   "<<"; ">>"; "<>"; "&"; "|"; "^"; "="].

(** Loop state of the normalizer: the text so far, whether the previous
    token asks for a blank after it, whether it was a name, number or
    string, whether it was an opening parenthesis or a comma, whether it
    looked like an operand, and the number of open brackets. *)
Record untok_state : Type := mkUntok {
  u_text : string;
  u_prev_wants_space : bool;
  u_prev_was_space_delim : bool;
  u_prev_was_open_paren_or_comma : bool;
  u_prev_was_object_like : bool;
  u_brackets : nat
}.

Definition untok_step (st : untok_state) (tok : token_type * string) : untok_state :=
  let '(token_type, token) := tok in
  let object_like :=
    bool_decide (token_type = NAME) || bool_decide (token_type = NUMBER)
    || bool_decide (token_type = STRING) in
  let open_or_comma := string_in token ["("; ","] in
  if object_like then
    let sp := u_prev_wants_space st || u_prev_was_space_delim st in
    mkUntok (u_text st +:+ (if sp then " " else "") +:+ token)
            false true open_or_comma true (u_brackets st)
  else
    let brackets :=
      if string_in token ["("; "["; "{"] then S (u_brackets st)
      else if string_in token [")"; "]"; "}"] then pred (u_brackets st)
      else u_brackets st in
    let unary :=
      (string_in token ["+"; "-"] && negb (u_prev_was_object_like st))
      || (string_in token ["*"; "**"] && u_prev_was_open_paren_or_comma st)
      || (String.eqb token "=" && negb (u_brackets st =? 0)) in
    let wants_before := string_in token binary_ops && negb unary in
    let wants_after := (string_in token binary_ops || string_in token [","; ":"])
                       && negb unary in
    let sp := u_prev_wants_space st || wants_before in
    mkUntok (u_text st +:+ (if sp then " " else "") +:+ token)
            wants_after false open_or_comma (String.eqb token ")") brackets.

(** Modelled from the spec: [patsy.tokens.pretty_untokenize] is missing; the
    spec has it rebuild "canonical text with deterministic minimal spacing":
    one blank between adjacent names and literals, around binary operators
    and after commas and colons, none next to brackets and dots. *)
Definition pretty_untokenize (typed_tokens : list (token_type * string)) : string :=
  u_text (fold_left untok_step typed_tokens (mkUntok "" false false false false 0)).

(** Modelled from the spec: [patsy.tokens.normalize_token_spacing] is
    missing; it is the normalizer applied to the tokens of the code. *)
Definition normalize_token_spacing (code : string) : string :=
  pretty_untokenize (map (λ t : Token, (tok_type t, tok_text t)) (python_tokenize code)).

End PatsyTokens.

(** ** VarLookupDict *)

Section GetitemLoop.
Context {D Value : Type}.

(** The subscription [d[key]] of one layer, [None] standing for its
    [KeyError]. *)
Variable get : D → string → option Value.

(** The [for] loop of [VarLookupDict.__getitem__]: [d[key]] for each layer
    in turn, a [KeyError] of a layer moving on to the next one. *)
Fixpoint getitem_loop (dicts : list D) (key : string) : result Value :=
  match dicts with
  | [] => Raise (KeyError key)
  | d :: dicts' =>
      match get d key with
      | Some value => Ok value
      | None => getitem_loop dicts' key
      end
  end.

End GetitemLoop.

(** Dictionaries are Python objects: the mappings handed to the constructor
    stay shared with the caller.  The object store maps the identity of a
    dictionary to its contents, and a [VarLookupDict] holds identities. *)
Module VarLookupDict.

Abbreviation Heap Value := (gmap nat (gmap string Value)).

Section WithValue.
Context {Value : Type}.

Record t : Type := mk { _dicts : list nat }.

(** [d[key]] for the dictionary with identity [d]. *)
Definition dict_get (h : Heap Value) (d : nat) (key : string) : option Value :=
  h !! d ≫= λ m, m !! key.

(** [__init__]: [self._dicts = [{}] + list(dicts)] allocates the zeroth
    dictionary. *)
Definition init (dicts : list nat) (h : Heap Value) : t * Heap Value :=
  let zeroth := fresh (dom h) in
  (mk (zeroth :: dicts), <[zeroth := ∅]> h).

Definition getitem (self : t) (key : string) (h : Heap Value) : result Value :=
  getitem_loop (dict_get h) (_dicts self) key.

(** [__setitem__]: [self._dicts[0][key] = value] *)
Definition setitem (self : t) (key : string) (value : Value) (h : Heap Value)
    : result (Heap Value) :=
  match _dicts self with
  | [] => Raise IndexError
  | zeroth :: _ =>
      match h !! zeroth with
      | Some m => Ok (<[zeroth := <[key := value]> m]> h)
      | None => Raise TypeError
      end
  end.

Definition contains (self : t) (key : string) (h : Heap Value) : bool :=
  match getitem self key h with
  | Ok _ => true
  | _ => false
  end.

Definition get (self : t) (key : string) (default : option Value) (h : Heap Value)
    : option Value :=
  match getitem self key h with
  | Ok value => Some value
  | _ => default
  end.

(** The internal zeroth dictionary of a [VarLookupDict]. *)
Definition zeroth (self : t) : option nat := head (_dicts self).

(** [self] is a [VarLookupDict] over the mappings [dicts] in the store [h]:
    its layers are a zeroth dictionary of its own, with any contents,
    followed by [dicts], and all of them are objects of the store. *)
Definition wf (self : t) (dicts : list nat) (h : Heap Value) : Prop :=
  ∃ z, _dicts self = z :: dicts ∧ is_Some (h !! z) ∧ (z ∉ dicts)
       ∧ ∀ d, d ∈ dicts → is_Some (h !! d).

End WithValue.
End VarLookupDict.

(** [EvalEnvironment] with its namespaces as objects: [id(namespace)] is
    the identity of the dictionary in the store. *)
Module EvalEnvironmentObj.

Record t : Type := mk { _namespaces : list nat; flags : Z }.

(** [_namespace_ids] *)
Definition _namespace_ids (self : t) : list nat := _namespaces self.

(** [add_outer_namespace] *)
Definition add_outer_namespace (self : t) (namespace : nat) : t :=
  if bool_decide (namespace ∈ _namespace_ids self) then self
  else mk (_namespaces self ++ [namespace]) (flags self).

(** The property [namespace]: a new [VarLookupDict] over the namespaces. *)
Definition namespace {Value : Type} (self : t) (h : VarLookupDict.Heap Value)
    : VarLookupDict.t * VarLookupDict.Heap Value :=
  VarLookupDict.init (_namespaces self) h.

(** [__eq__] between two environments. *)
Definition eq (self other : t) : bool :=
  bool_decide (flags self = flags other)
  && bool_decide (_namespace_ids self = _namespace_ids other).

End EvalEnvironmentObj.

(** Evaluation only reads its namespace.  A mapping read that way is a
    dictionary or a [VarLookupDict] over mappings, taken by value. *)
Inductive Mapping (Value : Type) : Type :=
  | Dict (d : gmap string Value)
  | Lookup (dicts : list (Mapping Value)).
Arguments Dict {Value} d.
Arguments Lookup {Value} dicts.

(** [VarLookupDict(dicts)] *)
Definition VarLookupDict_new {Value : Type} (dicts : list (Mapping Value))
    : Mapping Value :=
  Lookup (Dict ∅ :: dicts).

(** [m[key]] *)
Fixpoint mapping_getitem {Value : Type} (m : Mapping Value) (key : string)
    : result Value :=
  match m with
  | Dict d =>
      match d !! key with
      | Some value => Ok value
      | None => Raise (KeyError key)
      end
  | Lookup dicts =>
      getitem_loop
        (λ d key, match mapping_getitem d key with
                  | Ok value => Some value
                  | _ => None
                  end)
        dicts key
  end.

(** [m.get(key)], the default being [None]. *)
Definition mapping_get {Value : Type} (m : Mapping Value) (key : string)
    : option Value :=
  match mapping_getitem m key with
  | Ok value => Some value
  | _ => None
  end.

(** ** EvalEnvironment and EvalFactor *)

(** [s[n:]] *)
Fixpoint string_drop (n : nat) (s : string) : string :=
  match n, s with
  | 0, _ => s
  | S n', String _ s' => string_drop n' s'
  | S _, EmptyString => EmptyString
  end.

Record EvalEnvironment (Value : Type) : Type := mkEvalEnvironment {
  _namespaces : list (gmap string Value);
  flags : Z
}.
Arguments mkEvalEnvironment {Value} _ _.
Arguments _namespaces {Value} _.
Arguments flags {Value} _.

Record EvalFactor (Value : Type) : Type := mkEvalFactor {
  code : string;
  _eval_env : EvalEnvironment Value;
  origin : option Origin
}.
Arguments mkEvalFactor {Value} _ _ _.
Arguments code {Value} _.
Arguments _eval_env {Value} _.
Arguments origin {Value} _.

(** The [state] dictionary once [memorize_passes_needed] has filled it. *)
Record State (Value : Type) : Type := mkState {
  transforms : gmap string Value;
  eval_code : string;
  memorize_code : gmap string string;
  pass_bins : list (gset string)
}.
Arguments mkState {Value} _ _ _ _.
Arguments transforms {Value} _.
Arguments eval_code {Value} _.
Arguments memorize_code {Value} _.
Arguments pass_bins {Value} _.

Section EvalFactor.
Context {Value Store : Type}.

Variable python_tokenize : string → list Token.
Variable pretty_untokenize : list (token_type * string) → string.
Variable normalize_token_spacing : string → string.

(** [hasattr(value, "__patsy_stateful_transform__")] and, when it holds,
    the call [value.__patsy_stateful_transform__()], which may allocate the
    new object in the store. *)
Variable stateful_transform : Value → option (Store → Value * Store).

(** Python's [eval(compile(expr, source_name, "eval", flags, False), {},
    locals)]: the expression, the flags, the subscription of [locals] and the
    store of objects the expression may mutate. *)
Variable py_eval :
  string → Z → (string → option Value) → Store → result (Value * Store).

(** The method call [obj.memorize_finish()]. *)
Variable call_memorize_finish : Value → Store → result Store.

(** [EvalEnvironment.namespace] *)
Definition namespace (env : EvalEnvironment Value) : Mapping Value :=
  VarLookupDict_new (map Dict (_namespaces env)).

(** [EvalEnvironment.eval(expr, inner_namespace=...)] *)
Definition EvalEnvironment_eval (env : EvalEnvironment Value) (expr : string)
    (inner_namespace : Mapping Value) (σ : Store) : result (Value * Store) :=
  py_eval expr (flags env)
    (mapping_get (VarLookupDict_new (inner_namespace :: map Dict (_namespaces env))))
    σ.

(** [EvalFactor.__init__] *)
Definition EvalFactor_new (code : string) (eval_env : EvalEnvironment Value)
    (origin : option Origin) : EvalFactor Value :=
  mkEvalFactor (normalize_token_spacing code) eval_env origin.

(** The state [new_name_maker] closes over: the counter [i[0]], the
    dictionary [state["transforms"]], and the object store. *)
Definition maker_state : Type := nat * gmap string Value * Store.

Definition new_name_maker (self : EvalFactor Value) (token : string)
    (st : maker_state) : string * maker_state :=
  let '(i, transforms, σ) := st in
  match mapping_get (namespace (_eval_env self)) token ≫= stateful_transform with
  | Some factory =>
      let obj_name := "_patsy_stobj" +:+ pretty i +:+ "__" +:+ token +:+ "__" in
      let '(obj, σ') := factory σ in
      (obj_name +:+ ".transform", (S i, <[obj_name := obj]> transforms, σ'))
  | None => (token, st)
  end.

(** The loop that derives [state["memorize_code"]]. *)
Fixpoint memorize_code_loop (eval_code : string) (obj_names : list string)
    (memorize_code : gmap string string) : result (gmap string string) :=
  match obj_names with
  | [] => Ok memorize_code
  | obj_name :: rest =>
      transform_calls ←
        capture_obj_method_calls python_tokenize pretty_untokenize obj_name eval_code;
      _ ← assert (length transform_calls =? 1);
      match transform_calls with
      | [] => Raise IndexError
      | (transform_call_name, transform_call_code) :: _ =>
          _ ← assert (String.eqb transform_call_name (obj_name +:+ ".transform"));
          _ ← assert (String.prefix (transform_call_name +:+ "(") transform_call_code);
          let memorize_code' :=
            obj_name +:+ ".memorize_chunk"
            +:+ string_drop (String.length transform_call_name) transform_call_code in
          memorize_code_loop eval_code rest (<[obj_name := memorize_code']> memorize_code)
      end
  end.

(** The inner [for obj_name in unsorted] loop of the binning. *)
Fixpoint pass_bin_loop (memorize_code : gmap string string) (unsorted : gset string)
    (obj_names : list string) (pass_bin : gset string) : result (gset string) :=
  match obj_names with
  | [] => Ok pass_bin
  | obj_name :: rest =>
      let other_objs := unsorted ∖ {[obj_name]} in
      match memorize_code !! obj_name with
      | None => Raise (KeyError obj_name)
      | Some memorize_code_of_obj =>
          if negb (has_bare_variable_reference python_tokenize other_objs
                     memorize_code_of_obj)
          then pass_bin_loop memorize_code unsorted rest (pass_bin ∪ {[obj_name]})
          else pass_bin_loop memorize_code unsorted rest pass_bin
      end
  end.

(** The [while unsorted] loop, run for at most [fuel] iterations. *)
Fixpoint sort_loop (fuel : nat) (memorize_code : gmap string string)
    (unsorted : gset string) (pass_bins : list (gset string))
    : result (list (gset string)) :=
  if bool_decide (unsorted = ∅) then Ok pass_bins
  else
    match fuel with
    | 0 => Unfinished
    | S fuel' =>
        pass_bin ← pass_bin_loop memorize_code unsorted (elements unsorted) ∅;
        _ ← assert (negb (bool_decide (pass_bin = ∅)));
        sort_loop fuel' memorize_code (unsorted ∖ pass_bin) (pass_bins ++ [pass_bin])
    end.

(** [EvalFactor.memorize_passes_needed].  In the [raise] of the collision
    check the name [token] is neither a local of this method (it is the
    parameter of the nested [new_name_maker]) nor a global of the module:
    building the arguments of [PatsyError] raises [NameError].  The loop is
    given one iteration per transform, more than it can use. *)
Definition memorize_passes_needed (self : EvalFactor Value) (σ : Store)
    : result (nat * State Value * Store) :=
  let '(eval_code, (_, transforms, σ')) :=
    replace_bare_funcalls_st python_tokenize pretty_untokenize (code self)
      (new_name_maker self) (0, ∅, σ) in
  if has_bare_variable_reference python_tokenize (dom transforms) (code self)
  then Raise (NameError "token")
  else
    memorize_code ← memorize_code_loop eval_code (elements (dom transforms)) ∅;
    pass_bins ← sort_loop (size (dom transforms)) memorize_code (dom transforms) [];
    Ok (length pass_bins, mkState transforms eval_code memorize_code pass_bins, σ').

(** [EvalFactor._eval] *)
Definition _eval (self : EvalFactor Value) (code : string)
    (memorize_state : State Value) (data : gmap string Value) (σ : Store)
    : result (Value * Store) :=
  let inner_namespace :=
    VarLookupDict_new [Dict data; Dict (transforms memorize_state)] in
  EvalEnvironment_eval (_eval_env self) code inner_namespace σ.

Fixpoint memorize_chunk_loop (self : EvalFactor Value) (state : State Value)
    (data : gmap string Value) (obj_names : list string) (σ : Store)
    : result Store :=
  match obj_names with
  | [] => Ok σ
  | obj_name :: rest =>
      match memorize_code state !! obj_name with
      | None => Raise (KeyError obj_name)
      | Some memorize_code_of_obj =>
          '(_, σ') ← _eval self memorize_code_of_obj state data σ;
          memorize_chunk_loop self state data rest σ'
      end
  end.

(** [EvalFactor.memorize_chunk] *)
Definition memorize_chunk (self : EvalFactor Value) (state : State Value)
    (which_pass : nat) (data : gmap string Value) (σ : Store) : result Store :=
  match pass_bins state !! which_pass with
  | None => Raise IndexError
  | Some pass_bin => memorize_chunk_loop self state data (elements pass_bin) σ
  end.

Fixpoint memorize_finish_loop (state : State Value) (obj_names : list string)
    (σ : Store) : result Store :=
  match obj_names with
  | [] => Ok σ
  | obj_name :: rest =>
      match transforms state !! obj_name with
      | None => Raise (KeyError obj_name)
      | Some obj =>
          σ' ← call_memorize_finish obj σ;
          memorize_finish_loop state rest σ'
      end
  end.

(** [EvalFactor.memorize_finish] *)
Definition memorize_finish (self : EvalFactor Value) (state : State Value)
    (which_pass : nat) (σ : Store) : result Store :=
  match pass_bins state !! which_pass with
  | None => Raise IndexError
  | Some pass_bin => memorize_finish_loop state (elements pass_bin) σ
  end.

(** [EvalFactor.eval] *)
Definition eval (self : EvalFactor Value) (memorize_state : State Value)
    (data : gmap string Value) (σ : Store) : result (Value * Store) :=
  _eval self (eval_code memorize_state) memorize_state data σ.

End EvalFactor.

(** ** The objects of the tests *)

Module Tests.

(** [_MockTransform]: adds up all memorized data, then subtracts that sum
    from each datum. *)
Record MockTransform : Type := mkMock {
  _sum : Z;
  _memorize_chunk_called : Z;
  _memorize_finish_called : Z
}.

(** What [stateful_transform] is given in the tests: a function returning
    a constant string, or the class [_MockTransform]. *)
Inductive Factory : Type :=
  | ConstFactory (s : string)
  | MockTransformClass.

(** The Python values of the tests.  Arrays are numpy arrays of integers;
    a [_MockTransform] object is a reference into the store. *)
Inductive Value : Type :=
  | VNone
  | VInt (z : Z)
  | VStr (s : string)
  | VArray (a : list Z)
  | VStateful (f : Factory)
  | VRef (l : nat).

Abbreviation Store := (gmap nat MockTransform).

(** [_MockTransform.__init__] *)
Definition MockTransform_new : MockTransform := mkMock 0 0 0.

(** [_MockTransform.memorize_chunk]; [np.sum(data)] is the sum of the
    entries. *)
Definition MockTransform_memorize_chunk (self : MockTransform) (data : list Z)
    : MockTransform :=
  mkMock (_sum self + foldr Z.add 0%Z data)
         (_memorize_chunk_called self + 1)
         (_memorize_finish_called self).

(** [_MockTransform.memorize_finish] *)
Definition MockTransform_memorize_finish (self : MockTransform) : MockTransform :=
  mkMock (_sum self) (_memorize_chunk_called self) (_memorize_finish_called self + 1).

(** [_MockTransform.transform]; [data - self._sum] subtracts from each
    entry. *)
Definition MockTransform_transform (self : MockTransform) (data : list Z) : list Z :=
  map (λ x, x - _sum self)%Z data.

(** Modelled from the spec: [patsy.state.stateful_transform] is missing; the
    spec has a stateful transform be "obtainable via a factory invoked once
    per call-site occurrence".  The wrapped value answers
    [__patsy_stateful_transform__] by calling what it wraps. *)
Definition stateful_transform (value : Value) : option (Store → Value * Store) :=
  match value with
  | VStateful (ConstFactory s) => Some (λ σ, (VStr s, σ))
  | VStateful MockTransformClass =>
      Some (λ σ, let l := fresh (dom σ) in (VRef l, <[l := MockTransform_new]> σ))
  | _ => None
  end.

(** [obj.memorize_finish()] *)
Definition call_memorize_finish (obj : Value) (σ : Store) : result Store :=
  match obj with
  | VRef l =>
      match σ !! l with
      | Some o => Ok (<[l := MockTransform_memorize_finish o]> σ)
      | None => Raise TypeError
      end
  | _ => Raise (AttributeError "memorize_finish")
  end.

(** [obj.method(arg)] for the two methods that take the data. *)
Definition call_method (obj : Value) (method : string) (arg : Value) (σ : Store)
    : result (Value * Store) :=
  match obj, arg with
  | VRef l, VArray data =>
      match σ !! l with
      | Some o =>
          if String.eqb method "memorize_chunk" then
            Ok (VNone, <[l := MockTransform_memorize_chunk o data]> σ)
          else if String.eqb method "transform" then
            Ok (VArray (MockTransform_transform o data), σ)
          else Raise (AttributeError method)
      | None => Raise TypeError
      end
  | VRef _, _ => Raise TypeError
  | _, _ => Raise (AttributeError method)
  end.

(** [a + b] on integers and on arrays of equal length. *)
Definition add_values (a b : Value) : result Value :=
  match a, b with
  | VInt x, VInt y => Ok (VInt (x + y))
  | VArray x, VArray y =>
      if length x =? length y then Ok (VArray (zip_with Z.add x y))
      else Raise ValueError
  | _, _ => Raise TypeError
  end.

Definition is_op (t : Token) (s : string) : bool :=
  bool_decide (tok_type t = OP) && String.eqb (tok_text t) s.

Definition is_name (t : Token) : bool := bool_decide (tok_type t = NAME).

(** The evaluator of the expressions the tests run: sums of names and of
    method calls [name.method(expr)], operands evaluated left to right.
    [fuel] bounds the depth of the recursion. *)
Fixpoint eval_sum (fuel : nat) (ns : string → option Value) (toks : list Token)
    (σ : Store) : result (Value * list Token * Store) :=
  match fuel with
  | 0 => Unfinished
  | S fuel' =>
      '(v, toks', σ') ← eval_atom fuel' ns toks σ;
      eval_rest fuel' ns v toks' σ'
  end
with eval_rest (fuel : nat) (ns : string → option Value) (acc : Value)
    (toks : list Token) (σ : Store) : result (Value * list Token * Store) :=
  match fuel with
  | 0 => Unfinished
  | S fuel' =>
      match toks with
      | plus :: toks1 =>
          if is_op plus "+" then
            '(w, toks2, σ') ← eval_atom fuel' ns toks1 σ;
            r ← add_values acc w;
            eval_rest fuel' ns r toks2 σ'
          else Ok (acc, toks, σ)
      | [] => Ok (acc, toks, σ)
      end
  end
with eval_atom (fuel : nat) (ns : string → option Value) (toks : list Token)
    (σ : Store) : result (Value * list Token * Store) :=
  match fuel with
  | 0 => Unfinished
  | S fuel' =>
      match toks with
      | name :: toks1 =>
          if is_name name then
            match ns (tok_text name) with
            | None => Raise (NameError (tok_text name))
            | Some v =>
                match toks1 with
                | dot :: method :: paren :: toks2 =>
                    if is_op dot "." && is_name method && is_op paren "(" then
                      '(arg, toks3, σ') ← eval_sum fuel' ns toks2 σ;
                      match toks3 with
                      | close :: toks4 =>
                          if is_op close ")" then
                            '(r, σ'') ← call_method v (tok_text method) arg σ';
                            Ok (r, toks4, σ'')
                          else Raise SyntaxError
                      | [] => Raise SyntaxError
                      end
                    else Ok (v, toks1, σ)
                | _ => Ok (v, toks1, σ)
                end
            end
          else Raise SyntaxError
      | [] => Raise SyntaxError
      end
  end.

(** Python's [eval] on that fragment; the parse-variant flags play no part
    in it. *)
Definition py_eval (expr : string) (flags : Z) (ns : string → option Value)
    (σ : Store) : result (Value * Store) :=
  let toks := PatsyTokens.python_tokenize expr in
  '(v, rest, σ') ← eval_sum (2 * length toks + 2) ns toks σ;
  match rest with
  | [] => Ok (v, σ')
  | _ :: _ => Raise SyntaxError
  end.

Definition memorize_passes_needed (self : EvalFactor Value) (σ : Store) :=
  memorize_passes_needed PatsyTokens.python_tokenize PatsyTokens.pretty_untokenize
    stateful_transform self σ.

Definition memorize_chunk self state which_pass data σ :=
  memorize_chunk (Value := Value) py_eval self state which_pass data σ.

Definition memorize_finish self state which_pass σ :=
  memorize_finish (Value := Value) call_memorize_finish self state which_pass σ.

Definition eval self state data σ :=
  eval (Value := Value) py_eval self state data σ.

Definition EvalFactor_new (code : string) (env : EvalEnvironment Value) :=
  EvalFactor_new PatsyTokens.normalize_token_spacing code env None.

(** [replacer1] of [test_replace_bare_funcalls] *)
Definition replacer1 (token : string) : string :=
  default token
    (({[ "a" := "b"; "foo" := "_internal.foo.process" ]} : gmap string string)
       !! token).

(** The environment of [test_EvalFactor_memorize_passes_needed]. *)
Definition passes_env : EvalEnvironment Value :=
  mkEvalEnvironment
    [ {[ "foo" := VStateful (ConstFactory "FOO-OBJ");
         "bar" := VStateful (ConstFactory "BAR-OBJ");
         "quux" := VStateful (ConstFactory "QUUX-OBJ") ]} ] 0.

(** The environment of [test_EvalFactor_end_to_end]. *)
Definition end_to_end_env : EvalEnvironment Value :=
  mkEvalEnvironment [ {[ "foo" := VStateful MockTransformClass ]} ] 0.

(** The factors and the data of the tests. *)
Definition passes_factor : EvalFactor Value :=
  EvalFactor_new "foo(x) + bar(foo(y)) + quux(z, w)" passes_env.

Definition end_to_end_factor : EvalFactor Value :=
  EvalFactor_new "foo(x) + foo(foo(y))" end_to_end_env.

Definition chunk1 : gmap string Value :=
  {[ "x" := VArray [1; 2]%Z; "y" := VArray [10; 11]%Z ]}.

Definition chunk2 : gmap string Value :=
  {[ "x" := VArray [12; -10]%Z; "y" := VArray [100; 3]%Z ]}.

Definition all_data : gmap string Value :=
  {[ "x" := VArray [1; 2; 12; -10]%Z; "y" := VArray [10; 11; 100; 3]%Z ]}.

(** The state [memorize_passes_needed] leaves for [passes_factor]. *)
Definition passes_state : State Value :=
  match memorize_passes_needed passes_factor ∅ with
  | Ok (_, state, _) => state
  | _ => mkState ∅ "" ∅ []
  end.

(** A factor without calls, in an environment that has a stateful
    transform. *)
Definition plain_factor : EvalFactor Value :=
  EvalFactor_new "x + y" end_to_end_env.

(** A factor whose code already uses the name the first instance gets. *)
Definition collision_factor : EvalFactor Value :=
  EvalFactor_new "foo(_patsy_stobj0__foo__)" passes_env.

End Tests.

(** ** Vocabulary of the specification *)

(** [(token_type, token)], what the rewriter and the capturer keep of a
    token. *)
Definition strip (t : Token) : token_type * string := (tok_type t, tok_text t).

Definition astrip (a : AnnotatedToken) : token_type * string :=
  (atok_type a, atok_text a).

(** The token at position [i] of the stream directly follows a ['.']
    token; [prev_was_dot] answers for position 0. *)
Definition dot_before (prev_was_dot : bool) (toks : list Token) (i : nat) : bool :=
  match i with
  | 0 => prev_was_dot
  | S j =>
      match toks !! j with
      | Some t => String.eqb (tok_text t) "."
      | None => false
      end
  end.

(** The token after position [i] exists and is an opening parenthesis. *)
Definition paren_after (toks : list Token) (i : nat) : bool :=
  match toks !! S i with
  | Some t => String.eqb (tok_text t) "("
  | None => false
  end.

Definition preceded_by_dot (toks : list Token) (i : nat) : Prop :=
  ∃ j t, i = S j ∧ toks !! j = Some t ∧ tok_text t = ".".

Definition followed_by_paren (toks : list Token) (i : nat) : Prop :=
  ∃ t, toks !! S i = Some t ∧ tok_text t = "(".

(** Position [i] holds an identifier in call position: a [NAME] not after a
    dot and directly before ["("]. *)
Definition call_position (toks : list Token) (i : nat) : bool :=
  match toks !! i with
  | Some t =>
      bool_decide (tok_type t = NAME) && negb (dot_before false toks i)
      && paren_after toks i
  | None => false
  end.

(** The code holds a bare reference to [name]. *)
Definition bare_reference_to (python_tokenize : string → list Token)
    (name code : string) : Prop :=
  ∃ a, a ∈ annotated_tokens python_tokenize code
       ∧ bare_ref (atok_props a) = true ∧ atok_text a = name.

(** A schedule of the names [unsorted]: each bin is not empty and holds
    exactly the names of [unsorted] whose memorize code has no bare
    reference to another name of [unsorted]; the bins that follow schedule
    what is left. *)
Inductive layered (python_tokenize : string → list Token)
    (memorize_code : gmap string string) : gset string → list (gset string) → Prop :=
  | layered_nil : layered python_tokenize memorize_code ∅ []
  | layered_cons unsorted pass_bin rest :
      pass_bin ≠ ∅ →
      (∀ name, name ∈ pass_bin ↔
         name ∈ unsorted
         ∧ ∃ c, memorize_code !! name = Some c
                ∧ has_bare_variable_reference python_tokenize
                    (unsorted ∖ {[name]}) c = false) →
      layered python_tokenize memorize_code (unsorted ∖ pass_bin) rest →
      layered python_tokenize memorize_code unsorted (pass_bin :: rest).

(** ** Captures taken one at a time *)

(** A capturer given, in order, the tokens that follow its start token. *)
Fixpoint feed (capturer : FuncallCapturer) (toks : list (token_type * string))
    : result FuncallCapturer :=
  match toks with
  | [] => Ok capturer
  | (token_type, token) :: rest =>
      capturer' ← add_token capturer token_type token;
      feed capturer' rest
  end.

(** The bare references to [obj_name] in a stream, each with the tokens
    that come after it. *)
Fixpoint occurrences (obj_name : string) (ats : list AnnotatedToken)
    : list ((token_type * string) * list (token_type * string)) :=
  match ats with
  | [] => []
  | a :: ats' =>
      if bare_ref (atok_props a) && String.eqb (atok_text a) obj_name
      then (astrip a, map astrip ats') :: occurrences obj_name ats'
      else occurrences obj_name ats'
  end.

Definition is_opener (token : string) : bool := string_in token ["("; "{"; "["].
Definition is_closer (token : string) : bool := string_in token [")"; "}"; "]"].

(** The nesting depth once [token] is counted. *)
Definition depth_after (depth : Z) (token : string) : Z :=
  let depth1 := if is_opener token then (depth + 1)%Z else depth in
  if is_closer token then (depth1 - 1)%Z else depth1.

(** The dotted attribute path that directly follows an occurrence: names
    and dots up to the first ["("]; the second component is the rest of the
    stream, from that ["("] on. *)
Fixpoint dotted_path (toks : list (token_type * string))
    : option (list (token_type * string) * list (token_type * string)) :=
  match toks with
  | [] => None
  | (token_type, token) :: rest =>
      if String.eqb token "(" then Some ([], toks)
      else if (bool_decide (token_type = NAME) || String.eqb token ".")
              && negb (is_opener token) && negb (is_closer token)
      then '(path, call) ← dotted_path rest; Some ((token_type, token) :: path, call)
      else None
  end.

(** The balanced-bracket call: the tokens up to the bracket that brings the
    nesting depth, counted over [(){}[]], back to zero. *)
Fixpoint balanced_call (depth : nat) (toks : list (token_type * string))
    : option (list (token_type * string)) :=
  match toks with
  | [] => None
  | (token_type, token) :: rest =>
      if is_opener token then
        call ← balanced_call (S depth) rest; Some ((token_type, token) :: call)
      else if is_closer token then
        match depth with
        | 0 => None
        | 1 => Some [(token_type, token)]
        | S depth' =>
            call ← balanced_call depth' rest; Some ((token_type, token) :: call)
        end
      else
        match depth with
        | 0 => None
        | S _ =>
            call ← balanced_call depth rest; Some ((token_type, token) :: call)
        end
  end.

(** The capture of one occurrence, taken on its own: the dotted call name
    and the tokens of the call. *)
Definition capture_one (occ : (token_type * string) * list (token_type * string))
    : option (string * list (token_type * string)) :=
  '(path, rest) ← dotted_path occ.2;
  call ← balanced_call 0 rest;
  Some (String.concat "" (occ.1.2 :: map snd path), occ.1 :: path ++ call).

(** What [capture_obj_method_calls] returns for a finished capturer. *)
Definition render (pretty_untokenize : list (token_type * string) → string)
    (capturer : FuncallCapturer) : string * string :=
  (String.concat "" (func capturer), pretty_untokenize (tokens capturer)).

(** * Properties *)



(** ** The annotator *)

Lemma annotate_length pd toks : length (annotate pd toks) = length toks.
Proof.
  revert pd. induction toks as [|[[ty tok] org] toks IH]; intros pd; simpl.
  - reflexivity.
  - by rewrite IH.
Qed.

Lemma annotate_lookup toks : ∀ pd i,
  annotate pd toks !! i =
    (λ t, (tok_type t, tok_text t, tok_origin t,
           mkProps (negb (dot_before pd toks i) && bool_decide (tok_type t = NAME))
                   (negb (dot_before pd toks i) && bool_decide (tok_type t = NAME)
                    && paren_after toks i)))
    <$> toks !! i.
Proof.
  induction toks as [|[[ty tok] org] toks IH]; intros pd i.
  - by destruct i.
  - destruct i as [|i]; simpl.
    + unfold paren_after, tok_type, tok_text, tok_origin; simpl.
      destruct toks as [|t' toks']; simpl.
      * by rewrite !andb_false_r.
      * by rewrite andb_true_r.
    + rewrite IH. destruct (toks !! i) as [t|] eqn:Hi; simpl; [|done].
      unfold paren_after; simpl.
      destruct i as [|i]; simpl; [done|].
      reflexivity.
Qed.

Lemma dot_before_spec toks i :
  dot_before false toks i = true ↔ preceded_by_dot toks i.
Proof.
  unfold preceded_by_dot. destruct i as [|j]; simpl.
  - split; [done|]. by intros (j & t & ? & _).
  - destruct (toks !! j) as [t|] eqn:Hj.
    + rewrite String.eqb_eq. split.
      * intros Ht. by exists j, t.
      * intros (j' & t' & [= <-] & Ht' & Hdot). congruence.
    + split; [done|]. intros (j' & t' & [= <-] & Ht' & _). congruence.
Qed.

Lemma paren_after_spec toks i :
  paren_after toks i = true ↔ followed_by_paren toks i.
Proof.
  unfold paren_after, followed_by_paren.
  destruct (toks !! S i) as [t|].
  - rewrite String.eqb_eq. split; [by exists t|]. by intros (t' & [= <-] & ?).
  - split; [done|]. by intros (t' & ? & _).
Qed.

(** C2: every annotated token carries the token at the same position of the
    stream; its [bare_ref] holds exactly when the token is a [NAME] not
    directly after a ['.'] token, its [bare_funcall] exactly when [bare_ref]
    holds and the very next token is ["("]; a stream of one token gives one
    annotated token. *)
Theorem annotated_tokens_flags (python_tokenize : string → list Token) (code : string) :
  let toks := python_tokenize code in
  let ats := annotated_tokens python_tokenize code in
  length ats = length toks
  ∧ (∀ i a, ats !! i = Some a →
       ∃ t, toks !! i = Some t
            ∧ atok_type a = tok_type t ∧ atok_text a = tok_text t
            ∧ atok_origin a = tok_origin t
            ∧ (bare_ref (atok_props a) = true
               ↔ tok_type t = NAME ∧ ¬ preceded_by_dot toks i)
            ∧ (bare_funcall (atok_props a) = true
               ↔ bare_ref (atok_props a) = true ∧ followed_by_paren toks i))
  ∧ (∀ t, toks = [t] → ∃ a, ats = [a]).
Proof.
  intros toks ats. subst ats. unfold annotated_tokens. fold toks.
  split; [apply annotate_length|]. split.
  - intros i a Ha. rewrite annotate_lookup in Ha.
    destruct (toks !! i) as [t|] eqn:Hi; simpl in Ha; [|done].
    injection Ha as <-. exists t.
    do 4 (split; [reflexivity|]). unfold atok_props; simpl. split.
    + rewrite andb_true_iff, negb_true_iff, bool_decide_eq_true.
      rewrite <- dot_before_spec. destruct (dot_before false toks i); intuition congruence.
    + rewrite (andb_true_iff _ (paren_after toks i)), paren_after_spec. done.
  - intros t Ht. rewrite Ht. destruct t as [[ty tok] org]. simpl. eauto.
Qed.

(** The stream of ["x"] has one token, a bare reference that is no call. *)
Lemma annotated_tokens_flags_witness :
  ∃ a, annotated_tokens PatsyTokens.python_tokenize "x" = [a]
       ∧ bare_ref (atok_props a) = true ∧ bare_funcall (atok_props a) = false.
Proof.
  destruct (annotated_tokens_flags PatsyTokens.python_tokenize "x")
    as (_ & _ & Hone).
  destruct (Hone (NAME, "x", mkOrigin "x" 0 1) eq_refl) as [a Ha].
  exists a. split; [exact Ha|].
  vm_compute in Ha. injection Ha as <-. split; reflexivity.
Defined.

(** ** The call rewriter *)

(** What the rewriter does to one annotated token. *)
Lemma replace_loop_pure (replacer : string → string) ats : ∀ acc,
  replace_loop (λ token (_ : unit), (replacer token, tt)) ats acc tt =
    (acc ++ map (λ a, (atok_type a,
                       if bare_ref (atok_props a) && bare_funcall (atok_props a)
                       then replacer (atok_text a) else atok_text a)) ats, tt).
Proof.
  induction ats as [|[[[ty tok] org] props] ats IH]; intros acc; simpl.
  - by rewrite app_nil_r.
  - unfold atok_props, atok_text, atok_type; simpl.
    destruct (bare_ref props && bare_funcall props);
      rewrite IH; by rewrite <- app_assoc.
Qed.

Lemma annotate_call_position toks i a :
  annotate false toks !! i = Some a →
  bare_ref (atok_props a) && bare_funcall (atok_props a) = call_position toks i.
Proof.
  rewrite annotate_lookup. unfold call_position.
  destruct (toks !! i) as [t|]; simpl; [|done].
  intros [= <-]. unfold atok_props; simpl.
  destruct (dot_before false toks i), (bool_decide (tok_type t = NAME)),
    (paren_after toks i); reflexivity.
Qed.

Lemma call_position_spec toks i t :
  toks !! i = Some t →
  call_position toks i = true
  ↔ tok_type t = NAME ∧ ¬ preceded_by_dot toks i ∧ followed_by_paren toks i.
Proof.
  intros Ht. unfold call_position. rewrite Ht.
  rewrite !andb_true_iff, negb_true_iff, bool_decide_eq_true.
  rewrite <- dot_before_spec, <- paren_after_spec.
  destruct (dot_before false toks i); intuition congruence.
Qed.

(** C4: the rewriter hands the normalizer the token stream with the text of
    exactly the identifiers in call position (a [NAME], not after a dot,
    directly before ["("]) replaced by [replacer]; every other token, so an
    identifier used as a value, after a dot or before ["="], goes through
    unchanged; and the two worked examples. *)
Theorem replace_bare_funcalls_spec :
  (∀ (python_tokenize : string → list Token)
     (pretty_untokenize : list (token_type * string) → string)
     (code : string) (replacer : string → string),
     let toks := python_tokenize code in
     let out :=
       imap (λ i t, (tok_type t,
                     if call_position toks i then replacer (tok_text t)
                     else tok_text t)) toks in
     replace_bare_funcalls python_tokenize pretty_untokenize code replacer
       = pretty_untokenize out
     ∧ (∀ i t, toks !! i = Some t →
          tok_type t = NAME → ¬ preceded_by_dot toks i → followed_by_paren toks i →
          out !! i = Some (tok_type t, replacer (tok_text t)))
     ∧ (∀ i t, toks !! i = Some t →
          tok_type t ≠ NAME ∨ preceded_by_dot toks i ∨ ¬ followed_by_paren toks i →
          out !! i = Some (tok_type t, tok_text t)))
  ∧ replace_bare_funcalls PatsyTokens.python_tokenize PatsyTokens.pretty_untokenize
      "b() + a() * x[foo(2 ** 3)]" Tests.replacer1
    = "b() + b() * x[_internal.foo.process(2 ** 3)]"
  ∧ replace_bare_funcalls PatsyTokens.python_tokenize PatsyTokens.pretty_untokenize
      "a(a, x.a(1), a=a)" Tests.replacer1
    = "b(a, x.a(1), a=a)".
Proof.
  split.
  - intros python_tokenize pretty_untokenize code replacer toks out.
    split; [|split].
    + unfold replace_bare_funcalls, replace_bare_funcalls_st.
      rewrite replace_loop_pure. simpl. f_equal.
      unfold annotated_tokens. fold toks. subst out.
      apply list_eq. intros i.
      rewrite list_lookup_fmap, list_lookup_imap.
      destruct (annotate false toks !! i) as [a|] eqn:Ha.
      * pose proof (annotate_call_position _ _ _ Ha) as Hcp.
        rewrite annotate_lookup in Ha.
        destruct (toks !! i) as [t|]; simpl in *; [|done].
        injection Ha as <-. simpl. rewrite <- Hcp. reflexivity.
      * rewrite annotate_lookup in Ha.
        by destruct (toks !! i).
    + intros i t Ht Hn Hd Hp. subst out. rewrite list_lookup_imap, Ht. simpl.
      assert (call_position toks i = true) as ->; [|done].
      by apply (call_position_spec toks i t).
    + intros i t Ht Hcase. subst out. rewrite list_lookup_imap, Ht. simpl.
      destruct (call_position toks i) eqn:Hcp; [|done].
      apply (call_position_spec toks i t Ht) in Hcp. tauto.
  - split; vm_compute; reflexivity.
Qed.

(** In ["f(a)"] the token [f] is in call position and is replaced; [a] is
    not and stays. *)
Lemma replace_bare_funcalls_spec_witness :
  let toks := PatsyTokens.python_tokenize "f(a)" in
  let out :=
    imap (λ i t, (tok_type t,
                  if call_position toks i then String.append (tok_text t) "_"
                  else tok_text t)) toks in
  out !! 0 = Some (NAME, "f_") ∧ out !! 2 = Some (NAME, "a").
Proof.
  destruct replace_bare_funcalls_spec as (Hgen & _ & _).
  destruct (Hgen PatsyTokens.python_tokenize PatsyTokens.pretty_untokenize
              "f(a)" (λ s, String.append s "_")) as (_ & Hin & Hout).
  split.
  - apply (Hin 0 (NAME, "f", mkOrigin "f(a)" 0 1)).
    + reflexivity.
    + reflexivity.
    + intros (j & t & Hj & _). discriminate Hj.
    + exists (OP, "(", mkOrigin "f(a)" 1 2). split; reflexivity.
  - apply (Hout 2 (NAME, "a", mkOrigin "f(a)" 2 3)).
    + reflexivity.
    + right. right. intros (t & Ht & Htext).
      vm_compute in Ht. injection Ht as <-. discriminate Htext.
Defined.

(** ** VarLookupDict *)

Section GetitemLoopFacts.
Context {D Value : Type} (get : D → string → option Value).

Lemma getitem_loop_Ok dicts key v :
  getitem_loop get dicts key = Ok v
  ↔ ∃ i d, dicts !! i = Some d ∧ get d key = Some v
           ∧ ∀ j d', j < i → dicts !! j = Some d' → get d' key = None.
Proof.
  induction dicts as [|d dicts IH]; simpl.
  - split; [done|]. by intros (i & d & ? & _).
  - destruct (get d key) as [w|] eqn:Hd.
    + split.
      * intros [= ->]. exists 0, d. repeat split; [done|]. intros j d' Hj. lia.
      * intros (i & d' & Hi & Hv & Hfirst). destruct i as [|i].
        -- injection Hi as ->. congruence.
        -- specialize (Hfirst 0 d ltac:(lia) eq_refl). congruence.
    + rewrite IH. split.
      * intros (i & d' & Hi & Hv & Hfirst). exists (S i), d'.
        repeat split; [done..|]. intros [|j] d'' Hj Hd''.
        -- injection Hd'' as <-. done.
        -- apply (Hfirst j); [lia|done].
      * intros (i & d' & Hi & Hv & Hfirst). destruct i as [|i].
        -- injection Hi as ->. congruence.
        -- exists i, d'. repeat split; [done..|]. intros j d'' Hj Hd''.
           apply (Hfirst (S j)); [lia|done].
Qed.

Lemma getitem_loop_KeyError dicts key :
  getitem_loop get dicts key = Raise (KeyError key)
  ↔ ∀ d, d ∈ dicts → get d key = None.
Proof.
  induction dicts as [|d dicts IH]; simpl.
  - split; [|done]. intros _ d Hd. by apply elem_of_nil in Hd.
  - destruct (get d key) as [w|] eqn:Hd.
    + split; [done|]. intros H. specialize (H d ltac:(left)). congruence.
    + rewrite IH. split.
      * intros H d' [->|Hd']%elem_of_cons; auto.
      * intros H d' Hd'. apply H. by right.
Qed.

Lemma getitem_loop_total dicts key :
  (∃ v, getitem_loop get dicts key = Ok v)
  ∨ getitem_loop get dicts key = Raise (KeyError key).
Proof.
  induction dicts as [|d dicts IH]; simpl; [by right|].
  destruct (get d key); eauto.
Qed.

Lemma getitem_loop_ext (get' : D → string → option Value) dicts key :
  (∀ d, d ∈ dicts → get d key = get' d key) →
  getitem_loop get dicts key = getitem_loop get' dicts key.
Proof.
  induction dicts as [|d dicts IH]; intros Hext; simpl; [done|].
  rewrite <- (Hext d) by left. destruct (get d key); [done|].
  apply IH. intros d' Hd'. apply Hext. by right.
Qed.

End GetitemLoopFacts.

Section VarLookupDictFacts.
Context {Value : Type}.
Implicit Types (h : VarLookupDict.Heap Value) (dicts : list nat).

Lemma init_zeroth_fresh dicts h d :
  is_Some (h !! d) → d ≠ fresh (dom h).
Proof.
  intros Hd ->. apply elem_of_dom in Hd. by apply is_fresh in Hd.
Qed.

(** Assignment through a [VarLookupDict] of the store. *)
Lemma wf_setitem (ds : VarLookupDict.t) dicts h key (value : Value) :
  VarLookupDict.wf ds dicts h →
  ∃ z m,
    VarLookupDict._dicts ds = z :: dicts ∧ h !! z = Some m ∧ (z ∉ dicts)
    ∧ (∀ d, d ∈ dicts → is_Some (h !! d))
    ∧ VarLookupDict.setitem ds key value h = Ok (<[z := <[key := value]> m]> h).
Proof.
  intros (z & Hds & [m Hm] & Hz & Hdicts). exists z, m.
  repeat (split; [done|]).
  unfold VarLookupDict.setitem. by rewrite Hds, Hm.
Qed.

Lemma wf_setitem_facts (ds : VarLookupDict.t) dicts h key (value : Value) :
  VarLookupDict.wf ds dicts h →
  ∃ h2, VarLookupDict.setitem ds key value h = Ok h2
        ∧ VarLookupDict.wf ds dicts h2
        ∧ VarLookupDict.getitem ds key h2 = Ok value
        ∧ (∀ key', key' ≠ key →
             VarLookupDict.getitem ds key' h2 = VarLookupDict.getitem ds key' h)
        ∧ (∀ d, d ∈ dicts → h2 !! d = h !! d)
        ∧ (∀ d, Some d ≠ VarLookupDict.zeroth ds → h2 !! d = h !! d).
Proof.
  intros Hwf.
  destruct (wf_setitem ds dicts h key value Hwf) as (z & m & Hds & Hm & Hz & Hdicts & Hset).
  eexists. split; [exact Hset|].
  assert (∀ d, d ∈ dicts → d ≠ z) as Hne by (intros d Hd ->; done).
  split; [|split; [|split; [|split]]].
  - exists z. split; [done|]. split; [by rewrite lookup_insert_eq|].
    split; [done|]. intros d Hd. rewrite lookup_insert_ne; [by apply Hdicts|].
    intros ->. by apply (Hne d).
  - unfold VarLookupDict.getitem, VarLookupDict.dict_get. rewrite Hds. simpl.
    rewrite lookup_insert_eq. simpl. by rewrite lookup_insert_eq.
  - intros key' Hkey'. unfold VarLookupDict.getitem. rewrite Hds.
    apply getitem_loop_ext. intros d Hd. unfold VarLookupDict.dict_get.
    apply elem_of_cons in Hd as [->|Hd].
    + rewrite lookup_insert_eq, Hm. simpl. by rewrite lookup_insert_ne.
    + rewrite lookup_insert_ne; [done|]. intros ->. by apply (Hne d).
  - intros d Hd. rewrite lookup_insert_ne; [done|]. intros ->. by apply (Hne d).
  - intros d Hd. rewrite lookup_insert_ne; [done|]. intros ->.
    apply Hd. unfold VarLookupDict.zeroth. by rewrite Hds.
Qed.

(** What the constructor builds. *)
Lemma wf_init dicts h :
  (∀ d, d ∈ dicts → is_Some (h !! d)) →
  VarLookupDict.wf (VarLookupDict.init dicts h).1 dicts (VarLookupDict.init dicts h).2
  ∧ (∀ d, is_Some (h !! d) → (VarLookupDict.init dicts h).2 !! d = h !! d)
  ∧ ∀ d, is_Some (h !! d) → Some d ≠ VarLookupDict.zeroth (VarLookupDict.init dicts h).1.
Proof.
  intros Hdicts. unfold VarLookupDict.init. simpl.
  assert (∀ d, is_Some (h !! d) → d ≠ fresh (dom h)) as Hne.
  { intros d Hd. by apply (init_zeroth_fresh dicts h d). }
  split; [|split].
  - exists (fresh (dom h)). split; [done|].
    split; [by rewrite lookup_insert_eq|]. split.
    + intros Hin. by apply (Hne _ (Hdicts _ Hin)).
    + intros d Hd. rewrite lookup_insert_ne; [by apply Hdicts|].
      intros Heq. by apply (Hne d (Hdicts d Hd)).
  - intros d Hd. rewrite lookup_insert_ne; [done|]. intros Heq. by apply (Hne d).
  - intros d Hd. unfold VarLookupDict.zeroth. simpl. intros [= ->]. by apply (Hne _ Hd).
Qed.

(** C10: the constructor, given mappings of the store, builds a
    [VarLookupDict] over them with an empty zeroth dictionary of its own and
    changes none of them, so that a new object answers by the frontmost
    given mapping that holds the key.  For every [VarLookupDict] of the
    store, whatever was assigned through it before: a lookup returns the
    value of the frontmost layer that holds the key and raises [KeyError]
    exactly when no layer holds it; an assignment succeeds, is what the next
    lookup of the key returns, leaves the lookups of the other keys as they
    were, changes none of the mappings the constructor was given, and leaves
    a [VarLookupDict] of the store. *)
Theorem VarLookupDict_lookup_assign :
  (∀ dicts h,
     (∀ d, d ∈ dicts → is_Some (h !! d)) →
     let ds := (VarLookupDict.init dicts h).1 in
     let h1 := (VarLookupDict.init dicts h).2 in
     VarLookupDict.wf ds dicts h1
     ∧ (∀ d, d ∈ dicts → h1 !! d = h !! d)
     ∧ (∀ key v,
          VarLookupDict.getitem ds key h1 = Ok v
          ↔ ∃ i d, dicts !! i = Some d ∧ VarLookupDict.dict_get h d key = Some v
                   ∧ ∀ j d', j < i → dicts !! j = Some d' →
                             VarLookupDict.dict_get h d' key = None)
     ∧ (∀ key,
          VarLookupDict.getitem ds key h1 = Raise (KeyError key)
          ↔ ∀ d, d ∈ dicts → VarLookupDict.dict_get h d key = None))
  ∧ (∀ (ds : VarLookupDict.t) dicts h,
       VarLookupDict.wf ds dicts h →
       (∀ key v,
          VarLookupDict.getitem ds key h = Ok v
          ↔ ∃ i d, VarLookupDict._dicts ds !! i = Some d
                   ∧ VarLookupDict.dict_get h d key = Some v
                   ∧ ∀ j d', j < i → VarLookupDict._dicts ds !! j = Some d' →
                             VarLookupDict.dict_get h d' key = None)
       ∧ (∀ key,
            VarLookupDict.getitem ds key h = Raise (KeyError key)
            ↔ ∀ d, d ∈ VarLookupDict._dicts ds → VarLookupDict.dict_get h d key = None)
       ∧ (∀ key,
            (∃ v, VarLookupDict.getitem ds key h = Ok v)
            ∨ VarLookupDict.getitem ds key h = Raise (KeyError key))
       ∧ (∀ key value,
            ∃ h2, VarLookupDict.setitem ds key value h = Ok h2
                  ∧ VarLookupDict.wf ds dicts h2
                  ∧ VarLookupDict.getitem ds key h2 = Ok value
                  ∧ (∀ key', key' ≠ key →
                       VarLookupDict.getitem ds key' h2
                       = VarLookupDict.getitem ds key' h)
                  ∧ (∀ d, d ∈ dicts → h2 !! d = h !! d))).
Proof.
  split.
  - intros dicts h Hdicts ds h1. subst ds h1.
    destruct (wf_init dicts h Hdicts) as (Hwf & Hsame & _).
    split; [done|]. split; [by intros d Hd; apply Hsame, Hdicts|].
    assert (Hloop : ∀ key,
              VarLookupDict.getitem (VarLookupDict.init dicts h).1 key
                (VarLookupDict.init dicts h).2
              = getitem_loop (VarLookupDict.dict_get h) dicts key).
    { intros key. unfold VarLookupDict.init, VarLookupDict.getitem. simpl.
      unfold VarLookupDict.dict_get at 1. rewrite lookup_insert_eq. simpl.
      rewrite lookup_empty. apply getitem_loop_ext. intros d Hd.
      unfold VarLookupDict.dict_get. rewrite lookup_insert_ne; [done|].
      intros Heq. apply (init_zeroth_fresh dicts h d); [by apply Hdicts|done]. }
    split.
    + intros key v. rewrite Hloop. apply getitem_loop_Ok.
    + intros key. rewrite Hloop. apply getitem_loop_KeyError.
  - intros ds dicts h Hwf. split; [|split; [|split]].
    + intros key v. apply getitem_loop_Ok.
    + intros key. apply getitem_loop_KeyError.
    + intros key. apply getitem_loop_total.
    + intros key value.
      destruct (wf_setitem_facts ds dicts h key value Hwf)
        as (h2 & Hset & Hwf2 & Hget & Hother & Hframe & _).
      by exists h2.
Qed.

End VarLookupDictFacts.

(** [test_VarLookupDict], with one more assignment: over [d1 = {"a": 1}] and
    [d2 = {"a": 2, "b": 3}], [ds["a"]] is 1; after [ds["a"] = 10] and then
    [ds["c"] = 7], [ds["a"]] is 10 and [d1] still has 1. *)
Lemma VarLookupDict_lookup_assign_witness :
  let d1 : gmap string Z := {[ "a" := 1%Z ]} in
  let d2 : gmap string Z := {[ "a" := 2%Z; "b" := 3%Z ]} in
  let h : VarLookupDict.Heap Z := {[ 0 := d1; 1 := d2 ]} in
  let ds := (VarLookupDict.init [0; 1] h).1 in
  let h1 := (VarLookupDict.init [0; 1] h).2 in
  VarLookupDict.getitem ds "a" h1 = Ok 1%Z
  ∧ ∃ h2 h3,
      VarLookupDict.setitem ds "a" 10%Z h1 = Ok h2
      ∧ VarLookupDict.setitem ds "c" 7%Z h2 = Ok h3
      ∧ VarLookupDict.getitem ds "a" h3 = Ok 10%Z
      ∧ VarLookupDict.getitem ds "c" h3 = Ok 7%Z
      ∧ h3 !! 0 = Some d1.
Proof.
  intros d1 d2 h ds h1.
  assert (Hdicts : ∀ d, d ∈ [0; 1] → is_Some (h !! d)).
  { intros d Hd. apply elem_of_cons in Hd as [->|Hd].
    - exists d1. reflexivity.
    - apply elem_of_cons in Hd as [->|Hd].
      + exists d2. reflexivity.
      + by apply elem_of_nil in Hd. }
  destruct (@VarLookupDict_lookup_assign Z) as [Hnew Hany].
  destruct (Hnew [0; 1] h Hdicts) as (Hwf1 & Hsame1 & Hok & _).
  split.
  - apply Hok. exists 0, 0. split; [reflexivity|]. split; [reflexivity|].
    intros j d' Hj. lia.
  - destruct (Hany ds [0; 1] h1 Hwf1) as (_ & _ & _ & Hset1).
    destruct (Hset1 "a" 10%Z) as (h2 & Hs2 & Hwf2 & Hget2 & _ & Hframe2).
    destruct (Hany ds [0; 1] h2 Hwf2) as (_ & _ & _ & Hset2).
    destruct (Hset2 "c" 7%Z) as (h3 & Hs3 & _ & Hget3 & Hother3 & Hframe3).
    exists h2, h3. split; [exact Hs2|]. split; [exact Hs3|].
    split; [|split; [exact Hget3|]].
    + rewrite Hother3; [exact Hget2|discriminate].
    + rewrite Hframe3, Hframe2, Hsame1; [reflexivity|apply elem_of_cons; by left..].
Defined.

(** ** The worked examples of the scheduler *)

(** C6: scheduling ["foo(x) + bar(foo(y)) + quux(z, w)"] with [foo], [bar]
    and [quux] stateful transforms allocates four instances and returns 2
    passes: the two [foo] instances and the [quux] instance, then the [bar]
    instance. *)
Theorem memorize_passes_needed_example :
  ∃ state σ,
    Tests.memorize_passes_needed Tests.passes_factor ∅ = Ok (2, state, σ)
    ∧ transforms state
      = {[ "_patsy_stobj0__foo__" := Tests.VStr "FOO-OBJ";
           "_patsy_stobj1__bar__" := Tests.VStr "BAR-OBJ";
           "_patsy_stobj2__foo__" := Tests.VStr "FOO-OBJ";
           "_patsy_stobj3__quux__" := Tests.VStr "QUUX-OBJ" ]}
    ∧ size (transforms state) = 4
    ∧ eval_code state
      = "_patsy_stobj0__foo__.transform(x) + _patsy_stobj1__bar__.transform(_patsy_stobj2__foo__.transform(y)) + _patsy_stobj3__quux__.transform(z, w)"
    ∧ memorize_code state
      = {[ "_patsy_stobj0__foo__" := "_patsy_stobj0__foo__.memorize_chunk(x)";
           "_patsy_stobj1__bar__" :=
             "_patsy_stobj1__bar__.memorize_chunk(_patsy_stobj2__foo__.transform(y))";
           "_patsy_stobj2__foo__" := "_patsy_stobj2__foo__.memorize_chunk(y)";
           "_patsy_stobj3__quux__" := "_patsy_stobj3__quux__.memorize_chunk(z, w)" ]}
    ∧ pass_bins state
      = [ {[ "_patsy_stobj0__foo__"; "_patsy_stobj2__foo__"; "_patsy_stobj3__quux__" ]};
          {[ "_patsy_stobj1__bar__" ]} ].
Proof.
  eexists _, _. split; [vm_compute; reflexivity|].
  repeat split; vm_compute; reflexivity.
Qed.

(** C7: the code ["foo(_patsy_stobj0__foo__)"] has a bare reference to the
    name the scheduler gives its first instance; the collision check fires,
    and what [memorize_passes_needed] raises is the [NameError] of the
    unbound [token], not a [PatsyError]. *)
Theorem name_collision_raises_NameError :
  code Tests.collision_factor = "foo(_patsy_stobj0__foo__)"
  ∧ has_bare_variable_reference PatsyTokens.python_tokenize
      {[ "_patsy_stobj0__foo__" ]} (code Tests.collision_factor) = true
  ∧ Tests.memorize_passes_needed Tests.collision_factor ∅
    = Raise (NameError "token").
Proof. repeat split; vm_compute; reflexivity. Qed.

(** C9: the end-to-end run of ["foo(x) + foo(foo(y))"] with the summing
    transform.  Two passes are needed.  After the two chunks of pass 0 the
    instance of [foo(x)] has sum 5, two [memorize_chunk] calls and no
    [memorize_finish] call; after [memorize_finish] of pass 0 it has one,
    and its [transform] maps [1, 2, 12, -10] to [-4, -3, 7, -15]; after pass
    1 over the same chunks, [eval] on the whole data gives
    [254, 256, 355, 236]. *)
Theorem end_to_end_example :
  ∃ state σ0 σ1 σ2 σ3 σ4 σ5 σ6 lx x2 x3,
    Tests.memorize_passes_needed Tests.end_to_end_factor ∅ = Ok (2, state, σ0)
    ∧ transforms state !! "_patsy_stobj0__foo__" = Some (Tests.VRef lx)
    ∧ Tests.memorize_chunk Tests.end_to_end_factor state 0 Tests.chunk1 σ0 = Ok σ1
    ∧ Tests.memorize_chunk Tests.end_to_end_factor state 0 Tests.chunk2 σ1 = Ok σ2
    ∧ σ2 !! lx = Some x2
    ∧ Tests._sum x2 = 5%Z
    ∧ Tests._memorize_chunk_called x2 = 2%Z
    ∧ Tests._memorize_finish_called x2 = 0%Z
    ∧ Tests.memorize_finish Tests.end_to_end_factor state 0 σ2 = Ok σ3
    ∧ σ3 !! lx = Some x3
    ∧ Tests._memorize_finish_called x3 = 1%Z
    ∧ Tests.MockTransform_transform x3 [1; 2; 12; -10]%Z = [-4; -3; 7; -15]%Z
    ∧ Tests.memorize_chunk Tests.end_to_end_factor state 1 Tests.chunk1 σ3 = Ok σ4
    ∧ Tests.memorize_chunk Tests.end_to_end_factor state 1 Tests.chunk2 σ4 = Ok σ5
    ∧ Tests.memorize_finish Tests.end_to_end_factor state 1 σ5 = Ok σ6
    ∧ Tests.eval Tests.end_to_end_factor state Tests.all_data σ6
      = Ok (Tests.VArray [254; 256; 355; 236]%Z, σ6).
Proof.
  eexists _, _, _, _, _, _, _, _, _, _, _.
  repeat (split; [vm_compute; reflexivity|]).
  vm_compute; reflexivity.
Qed.

(** ** The scheduler *)

Section SchedulerFacts.
Variable python_tokenize : string → list Token.
Variable pretty_untokenize : list (token_type * string) → string.

Lemma any_bare_ref_true names ats :
  any_bare_ref names ats = true
  ↔ ∃ a, a ∈ ats ∧ bare_ref (atok_props a) = true ∧ atok_text a ∈ names.
Proof.
  induction ats as [|[[[ty tok] org] props] ats IH]; simpl.
  - split; [done|]. intros (a & Ha & _). by apply elem_of_nil in Ha.
  - destruct (bare_ref props && bool_decide (tok ∈ names)) eqn:Hhd.
    + apply andb_true_iff in Hhd as [Hb Hin]. apply bool_decide_eq_true in Hin.
      split; [|done]. intros _. exists (ty, tok, org, props).
      split; [left|done].
    + rewrite IH. split.
      * intros (a & Ha & Hb & Hin). exists a. split; [by right|done].
      * intros (a & Ha & Hb & Hin). apply elem_of_cons in Ha as [->|Ha].
        -- unfold atok_props, atok_text in *; simpl in *.
           rewrite Hb, bool_decide_eq_true_2 in Hhd by done. done.
        -- by exists a.
Qed.

Lemma has_bare_variable_reference_true names code :
  has_bare_variable_reference python_tokenize names code = true
  ↔ ∃ name, name ∈ names ∧ bare_reference_to python_tokenize name code.
Proof.
  unfold has_bare_variable_reference, bare_reference_to.
  rewrite any_bare_ref_true. split.
  - intros (a & Ha & Hb & Hin). exists (atok_text a). eauto.
  - intros (name & Hin & a & Ha & Hb & <-). eauto.
Qed.

Lemma has_bare_variable_reference_false names code :
  has_bare_variable_reference python_tokenize names code = false
  ↔ ∀ name, name ∈ names → ¬ bare_reference_to python_tokenize name code.
Proof.
  rewrite <- not_true_iff_false, has_bare_variable_reference_true.
  split.
  - intros H name Hin Hr. apply H. eauto.
  - intros H (name & Hin & Hr). by apply (H name).
Qed.

Lemma pass_bin_loop_Ok mc unsorted objs : ∀ acc pass_bin,
  pass_bin_loop python_tokenize mc unsorted objs acc = Ok pass_bin →
  ∀ name, name ∈ pass_bin ↔
    name ∈ acc
    ∨ (name ∈ objs
       ∧ ∃ c, mc !! name = Some c
              ∧ has_bare_variable_reference python_tokenize
                  (unsorted ∖ {[name]}) c = false).
Proof.
  induction objs as [|obj objs IH]; intros acc pass_bin; simpl.
  - intros [= <-] name. split; [by left|]. intros [?|[Hin _]]; [done|].
    by apply elem_of_nil in Hin.
  - destruct (mc !! obj) as [c|] eqn:Hc; [|done].
    destruct (has_bare_variable_reference python_tokenize (unsorted ∖ {[obj]}) c)
      eqn:Href; simpl; intros Hloop name; rewrite (IH _ _ Hloop name).
    + split.
      * intros [?|[Hin Hn]]; [by left|]. right. split; [by right|done].
      * intros [?|[Hin (c' & Hc' & Hn)]]; [by left|].
        apply elem_of_cons in Hin as [->|Hin]; [congruence|]. right. eauto.
    + split.
      * intros [[?| ->%elem_of_singleton]%elem_of_union|[Hin Hn]].
        -- by left.
        -- right. split; [left|eauto].
        -- right. split; [by right|done].
      * intros [?|[Hin (c' & Hc' & Hn)]].
        -- left. set_solver.
        -- apply elem_of_cons in Hin as [->|Hin].
           ++ left. set_solver.
           ++ right. eauto.
Qed.

Lemma sort_loop_Ok fuel mc : ∀ unsorted bins result,
  sort_loop python_tokenize fuel mc unsorted bins = Ok result →
  ∃ new, result = bins ++ new ∧ layered python_tokenize mc unsorted new.
Proof.
  induction fuel as [|fuel IH]; intros unsorted bins result; simpl.
  - case_bool_decide as Hempty; [|done]. intros [= <-]. exists [].
    rewrite app_nil_r, Hempty. split; [done|constructor].
  - case_bool_decide as Hempty.
    { intros [= <-]. exists []. rewrite app_nil_r, Hempty. split; [done|constructor]. }
    destruct (pass_bin_loop python_tokenize mc unsorted (elements unsorted) ∅)
      as [pass_bin| |] eqn:Hbin; simpl; [|done..].
    case_bool_decide as Hne; simpl; [done|].
    intros Hrest. apply IH in Hrest as (new & -> & Hnew).
    exists (pass_bin :: new). split; [by rewrite <- app_assoc|].
    constructor; [done| |done].
    intros name. rewrite (pass_bin_loop_Ok _ _ _ _ _ Hbin name).
    rewrite elem_of_elements. set_solver.
Qed.

Lemma layered_subset mc unsorted bins :
  layered python_tokenize mc unsorted bins →
  ∀ k bin, bins !! k = Some bin → bin ⊆ unsorted.
Proof.
  induction 1 as [|unsorted pass_bin rest Hne Hbin Hrest IH]; intros k bin Hk.
  - done.
  - destruct k as [|k]; simpl in Hk.
    + injection Hk as <-. intros name Hin. by apply Hbin in Hin as [? _].
    + specialize (IH k bin Hk). set_solver.
Qed.

Lemma layered_cover mc unsorted bins :
  layered python_tokenize mc unsorted bins →
  ∀ name, name ∈ unsorted ↔ ∃ k bin, bins !! k = Some bin ∧ name ∈ bin.
Proof.
  induction 1 as [|unsorted pass_bin rest Hne Hbin Hrest IH]; intros name.
  - split; [set_solver|]. by intros (k & bin & Hk & _).
  - split.
    + intros Hin. destruct (decide (name ∈ pass_bin)) as [Hp|Hp].
      * by exists 0, pass_bin.
      * assert (name ∈ unsorted ∖ pass_bin) as Hd by set_solver.
        apply IH in Hd as (k & bin & Hk & Hb). by exists (S k), bin.
    + intros (k & bin & Hk & Hb).
      by apply (layered_subset mc unsorted (pass_bin :: rest)
                  ltac:(by constructor) k bin).
Qed.

Lemma layered_disjoint mc unsorted bins :
  layered python_tokenize mc unsorted bins →
  ∀ j k bj bk name,
    bins !! j = Some bj → bins !! k = Some bk → name ∈ bj → name ∈ bk → j = k.
Proof.
  induction 1 as [|unsorted pass_bin rest Hne Hbin Hrest IH];
    intros j k bj bk name Hj Hk Hinj Hink; [done|].
  destruct j as [|j], k as [|k]; simpl in *.
  - done.
  - injection Hj as <-.
    pose proof (layered_subset _ _ _ Hrest k bk Hk). set_solver.
  - injection Hk as <-.
    pose proof (layered_subset _ _ _ Hrest j bj Hj). set_solver.
  - f_equal. by apply (IH j k bj bk name).
Qed.

Lemma layered_nonempty mc unsorted bins :
  layered python_tokenize mc unsorted bins →
  ∀ k bin, bins !! k = Some bin → bin ≠ ∅.
Proof.
  induction 1 as [|unsorted pass_bin rest Hne Hbin Hrest IH]; intros k bin Hk; [done|].
  destruct k as [|k]; simpl in Hk; [by injection Hk as <-|by apply (IH k)].
Qed.

Lemma layered_independent mc unsorted bins :
  layered python_tokenize mc unsorted bins →
  ∀ k bin name, bins !! k = Some bin → name ∈ bin →
    ∃ c, mc !! name = Some c
         ∧ ∀ j bj other, k ≤ j → bins !! j = Some bj → other ∈ bj → other ≠ name →
             ¬ bare_reference_to python_tokenize other c.
Proof.
  induction 1 as [|unsorted pass_bin rest Hne Hbin Hrest IH];
    intros k bin name Hk Hin; [done|].
  destruct k as [|k]; simpl in Hk.
  - injection Hk as <-. apply Hbin in Hin as (Hu & c & Hc & Href).
    exists c. split; [done|]. intros j bj other _ Hj Hother Hneq.
    rewrite has_bare_variable_reference_false in Href. apply Href.
    pose proof (layered_subset mc unsorted (pass_bin :: rest)
                  ltac:(by constructor) j bj Hj). set_solver.
  - destruct (IH k bin name Hk Hin) as (c & Hc & Hind).
    exists c. split; [done|]. intros [|j] bj other Hle Hj Hother Hneq; [lia|].
    simpl in Hj. apply (Hind j bj other); [lia|done..].
Qed.

Lemma pass_bin_loop_subset mc unsorted pass_bin :
  pass_bin_loop python_tokenize mc unsorted (elements unsorted) ∅ = Ok pass_bin →
  pass_bin ⊆ unsorted.
Proof.
  intros Hbin name Hin. apply (pass_bin_loop_Ok _ _ _ _ _ Hbin) in Hin.
  destruct Hin as [Hin|[Hin _]]; [set_solver|]. by apply elem_of_elements in Hin.
Qed.

Lemma sort_loop_finishes fuel mc : ∀ unsorted bins,
  size unsorted ≤ fuel →
  sort_loop python_tokenize fuel mc unsorted bins ≠ Unfinished.
Proof.
  induction fuel as [|fuel IH]; intros unsorted bins Hsize; simpl.
  - case_bool_decide as Hempty; [done|].
    exfalso. apply Hempty. apply leibniz_equiv, size_empty_inv. lia.
  - case_bool_decide as Hempty; [done|].
    destruct (pass_bin_loop python_tokenize mc unsorted (elements unsorted) ∅)
      as [pass_bin| |] eqn:Hbin; simpl; [|done|].
    + case_bool_decide as Hne; simpl; [done|].
      apply IH. apply pass_bin_loop_subset in Hbin.
      assert (size (unsorted ∖ pass_bin) < size unsorted); [|lia].
      apply subset_size. apply set_choose_L in Hne as [x Hx]. set_solver.
    + exfalso. revert Hbin. generalize (elements unsorted) (∅ : gset string).
      intros objs. induction objs as [|obj objs IHo]; intros acc; simpl; [done|].
      destruct (mc !! obj); [|done].
      destruct (negb _); apply IHo.
Qed.

(** An iteration that finds nothing to schedule while names remain fails
    the [assert]. *)
Lemma sort_loop_stuck fuel mc unsorted bins :
  unsorted ≠ ∅ →
  pass_bin_loop python_tokenize mc unsorted (elements unsorted) ∅ = Ok ∅ →
  sort_loop python_tokenize (S fuel) mc unsorted bins = Raise AssertionError.
Proof.
  intros Hne Hbin. simpl. rewrite bool_decide_eq_false_2 by done.
  rewrite Hbin. simpl. by rewrite bool_decide_eq_true_2.
Qed.

End SchedulerFacts.

(** *** No run is left unfinished *)

Lemma bind_finishes {A B} (r : result A) (k : A → result B) :
  r ≠ Unfinished → (∀ a, k a ≠ Unfinished) → (r ≫= k) ≠ Unfinished.
Proof. destruct r; simpl; auto. Qed.

Lemma assert_finishes c : assert c ≠ Unfinished.
Proof. by destruct c. Qed.

Lemma add_token_finishes c ty tok : add_token c ty tok ≠ Unfinished.
Proof.
  unfold add_token. destruct (done c); [done|].
  apply bind_finishes; [apply assert_finishes|]. intros _.
  apply bind_finishes; [|by intros [??]].
  destruct (negb (started c)); [|done].
  destruct (String.eqb tok "("); [done|].
  apply bind_finishes; [apply assert_finishes|done].
Qed.

Lemma add_token_all_finishes caps ty tok : add_token_all caps ty tok ≠ Unfinished.
Proof.
  induction caps as [|c caps IH]; simpl; [done|].
  apply bind_finishes; [apply add_token_finishes|]. intros c'.
  apply bind_finishes; [apply IH|done].
Qed.

Lemma capture_loop_finishes obj_name ats : ∀ caps,
  capture_loop obj_name ats caps ≠ Unfinished.
Proof.
  induction ats as [|[[[ty tok] org] props] ats IH]; intros caps; simpl; [done|].
  apply bind_finishes; [apply add_token_all_finishes|]. intros caps'.
  destruct (_ && _); apply IH.
Qed.

Lemma capture_obj_method_calls_finishes python_tokenize pretty_untokenize obj_name code :
  capture_obj_method_calls python_tokenize pretty_untokenize obj_name code ≠ Unfinished.
Proof.
  unfold capture_obj_method_calls.
  apply bind_finishes; [apply capture_loop_finishes|done].
Qed.

Lemma memorize_code_loop_finishes python_tokenize pretty_untokenize ec names : ∀ acc,
  memorize_code_loop python_tokenize pretty_untokenize ec names acc ≠ Unfinished.
Proof.
  induction names as [|name names IH]; intros acc; simpl; [done|].
  apply bind_finishes; [apply capture_obj_method_calls_finishes|]. intros calls.
  apply bind_finishes; [apply assert_finishes|]. intros _.
  destruct calls as [|[cn cc] ?]; [done|].
  apply bind_finishes; [apply assert_finishes|]. intros _.
  apply bind_finishes; [apply assert_finishes|]. intros _. apply IH.
Qed.

Section PassBins.
Context {Value Store : Type}.
Variable python_tokenize : string → list Token.
Variable pretty_untokenize : list (token_type * string) → string.
Variable stateful_transform : Value → option (Store → Value * Store).

Let passes_needed :=
  memorize_passes_needed python_tokenize pretty_untokenize stateful_transform.

(** What a successful run of [memorize_passes_needed] leaves in [state]. *)
Lemma memorize_passes_needed_Ok (self : EvalFactor Value) σ n state σ' :
  passes_needed self σ = Ok (n, state, σ') →
  n = length (pass_bins state)
  ∧ layered python_tokenize (memorize_code state) (dom (transforms state))
      (pass_bins state)
  ∧ memorize_code_loop python_tokenize pretty_untokenize (eval_code state)
      (elements (dom (transforms state))) ∅ = Ok (memorize_code state).
Proof.
  unfold passes_needed, memorize_passes_needed.
  destruct (replace_bare_funcalls_st _ _ _ _ _) as [ec [[i tr] σ1]].
  destruct (has_bare_variable_reference _ _ _); [done|].
  destruct (memorize_code_loop _ _ _ _ _) as [mc| |] eqn:Hmc; simpl; [|done..].
  destruct (sort_loop _ _ _ _ _) as [bins| |] eqn:Hbins; simpl; [|done..].
  intros [= <- <- <-]. simpl.
  apply sort_loop_Ok in Hbins as (new & -> & Hnew). simpl. done.
Qed.

(** C1: when [memorize_passes_needed] succeeds, the pass bins partition the
    names of the allocated instances (every name is in a bin, in one bin
    only), no bin is empty, the count returned is the number of bins, and
    the memorize code of an instance of bin [k] has no bare reference to
    another instance of bin [k] or of a later bin.  The run always ends, and
    an iteration that schedules nothing while names remain raises
    [AssertionError]. *)
Theorem pass_bins_partition (self : EvalFactor Value) (σ : Store) :
  (∀ n state σ', passes_needed self σ = Ok (n, state, σ') →
     n = length (pass_bins state)
     ∧ (∀ name, name ∈ dom (transforms state)
                ↔ ∃ k bin, pass_bins state !! k = Some bin ∧ name ∈ bin)
     ∧ (∀ j k bj bk name,
          pass_bins state !! j = Some bj → pass_bins state !! k = Some bk →
          name ∈ bj → name ∈ bk → j = k)
     ∧ (∀ k bin, pass_bins state !! k = Some bin → bin ≠ ∅)
     ∧ (∀ k bin name, pass_bins state !! k = Some bin → name ∈ bin →
          ∃ c, memorize_code state !! name = Some c
               ∧ ∀ j bj other,
                   k ≤ j → pass_bins state !! j = Some bj → other ∈ bj →
                   other ≠ name → ¬ bare_reference_to python_tokenize other c))
  ∧ passes_needed self σ ≠ Unfinished
  ∧ (∀ fuel mc unsorted bins,
       unsorted ≠ ∅ →
       pass_bin_loop python_tokenize mc unsorted (elements unsorted) ∅ = Ok ∅ →
       sort_loop python_tokenize (S fuel) mc unsorted bins = Raise AssertionError).
Proof.
  split; [|split].
  - intros n state σ' Hok.
    apply memorize_passes_needed_Ok in Hok as (Hn & Hlay & _).
    split; [done|]. split; [by apply (layered_cover _ _ _ _ Hlay)|].
    split; [by apply (layered_disjoint _ _ _ _ Hlay)|].
    split; [by apply (layered_nonempty _ _ _ _ Hlay)|].
    by apply (layered_independent _ _ _ _ Hlay).
  - unfold passes_needed, memorize_passes_needed.
    destruct (replace_bare_funcalls_st _ _ _ _ _) as [ec [[i tr] σ1]].
    destruct (has_bare_variable_reference _ _ _); [done|].
    destruct (memorize_code_loop _ _ _ _ _) as [mc| |] eqn:Hloop; simpl; [|done|].
    + pose proof (sort_loop_finishes python_tokenize (size (dom tr)) mc (dom tr) []
                    ltac:(lia)) as Hfin.
      destruct (sort_loop _ _ _ _ _); simpl; done.
    + by apply memorize_code_loop_finishes in Hloop.
  - intros fuel mc unsorted bins. apply sort_loop_stuck.
Qed.

End PassBins.

(** The factor of [test_EvalFactor_memorize_passes_needed] is scheduled, so
    its bins are a partition into non-empty bins. *)
Lemma pass_bins_partition_witness :
  memorize_passes_needed PatsyTokens.python_tokenize PatsyTokens.pretty_untokenize
    Tests.stateful_transform Tests.passes_factor ∅
  = Ok (2, Tests.passes_state, ∅)
  ∧ 2 = length (pass_bins Tests.passes_state)
  ∧ (∀ name, name ∈ dom (transforms Tests.passes_state)
             ↔ ∃ k bin, pass_bins Tests.passes_state !! k = Some bin ∧ name ∈ bin)
  ∧ (∀ k bin, pass_bins Tests.passes_state !! k = Some bin → bin ≠ ∅).
Proof.
  assert (Hrun : memorize_passes_needed PatsyTokens.python_tokenize
                   PatsyTokens.pretty_untokenize Tests.stateful_transform
                   Tests.passes_factor ∅
                 = Ok (2, Tests.passes_state, ∅)).
  { vm_compute. reflexivity. }
  destruct (pass_bins_partition PatsyTokens.python_tokenize
              PatsyTokens.pretty_untokenize Tests.stateful_transform
              Tests.passes_factor ∅) as (Hok & _ & _).
  destruct (Hok 2 Tests.passes_state ∅ Hrun) as (Hn & Hcover & _ & Hne & _).
  split; [exact Hrun|]. split; [exact Hn|]. split; [exact Hcover|exact Hne].
Defined.

(** ** The memorize code *)

Lemma string_app_assoc (a b c : string) : (a +:+ b) +:+ c = a +:+ (b +:+ c).
Proof.
  induction a as [|x a IH]; [done|].
  change (String x ((a +:+ b) +:+ c) = String x (a +:+ (b +:+ c))).
  by rewrite IH.
Qed.

Lemma prefix_app_drop (p q s : string) :
  String.prefix (p +:+ q) s = true →
  s = p +:+ string_drop (String.length p) s
  ∧ String.prefix q (string_drop (String.length p) s) = true.
Proof.
  revert s. induction p as [|c p IH]; intros s.
  - done.
  - destruct s as [|c' s]; simpl; [done|].
    destruct (Ascii.ascii_dec c c') as [->|Hne]; [|done].
    intros [Hs Hq]%IH. split; [|done].
    change (String c' s = String c' (p +:+ string_drop (String.length p) s)).
    by rewrite <- Hs.
Qed.

Section MemorizeCode.
Context {Value Store : Type}.
Variable python_tokenize : string → list Token.
Variable pretty_untokenize : list (token_type * string) → string.
Variable stateful_transform : Value → option (Store → Value * Store).

(** The memorize code of [name] is derived from its one transform call. *)
Let derived (ec : string) (mc : gmap string string) (name : string) : Prop :=
  ∃ args,
    capture_obj_method_calls python_tokenize pretty_untokenize name ec
      = Ok [(name +:+ ".transform", name +:+ ".transform" +:+ args)]
    ∧ String.prefix "(" args = true
    ∧ mc !! name = Some (name +:+ ".memorize_chunk" +:+ args).

Lemma memorize_code_loop_Ok ec names : ∀ acc mc,
  memorize_code_loop python_tokenize pretty_untokenize ec names acc = Ok mc →
  (∀ name, name ∈ names → derived ec mc name)
  ∧ (∀ name, name ∉ names → mc !! name = acc !! name).
Proof.
  induction names as [|obj names IH]; intros acc mc; simpl.
  - intros [= <-]. split; [|done]. intros name Hin. by apply elem_of_nil in Hin.
  - destruct (capture_obj_method_calls _ _ obj ec) as [calls| |] eqn:Hcalls;
      simpl; [|done..].
    destruct calls as [|[cn cc] [|??]]; simpl; [done| |done].
    destruct (String.eqb cn (obj +:+ ".transform")) eqn:Hcn; simpl; [|done].
    apply String.eqb_eq in Hcn. subst cn.
    destruct (String.prefix ((obj +:+ ".transform") +:+ "(") cc) eqn:Hpre;
      simpl; [|done].
    apply prefix_app_drop in Hpre as [Hcc Hargs].
    set (args := string_drop (String.length (obj +:+ ".transform")) cc) in *.
    intros Hloop. apply IH in Hloop as [Hin Hout]. split.
    + intros name [->|Hname]%elem_of_cons; [|by apply Hin].
      destruct (decide (obj ∈ names)) as [Hn|Hn]; [by apply Hin|].
      exists args. split; [by rewrite <- string_app_assoc, <- Hcc|].
      split; [done|].
      by rewrite (Hout obj Hn), lookup_insert_eq.
    + intros name Hname. apply not_elem_of_cons in Hname as [Hne Hname].
      by rewrite (Hout name Hname), lookup_insert_ne.
Qed.

(** X4 (the derivation that claim C5 describes): when
    [memorize_passes_needed] succeeds, the capturer finds for every
    allocated instance exactly one call in the evaluation code, the call
    [<instance>.transform(...)], and the memorize code of the instance is
    that call with [<instance>.transform] replaced by
    [<instance>.memorize_chunk], the argument text [args] being the same. *)
Theorem memorize_code_from_transform_call (self : EvalFactor Value) (σ : Store)
    n state σ' :
  memorize_passes_needed python_tokenize pretty_untokenize stateful_transform self σ
    = Ok (n, state, σ') →
  ∀ name, name ∈ dom (transforms state) →
    ∃ args,
      capture_obj_method_calls python_tokenize pretty_untokenize name (eval_code state)
        = Ok [(name +:+ ".transform", name +:+ ".transform" +:+ args)]
      ∧ String.prefix "(" args = true
      ∧ memorize_code state !! name = Some (name +:+ ".memorize_chunk" +:+ args).
Proof.
  intros Hok name Hname.
  apply memorize_passes_needed_Ok in Hok as (_ & _ & Hloop).
  apply memorize_code_loop_Ok in Hloop as [Hin _].
  apply Hin. by apply elem_of_elements.
Qed.

End MemorizeCode.

(** In the factor of [test_EvalFactor_memorize_passes_needed] the instance
    of [bar] has the one call [.transform(_patsy_stobj2__foo__.transform(y))]
    and the memorize code with the same arguments. *)
Lemma memorize_code_from_transform_call_witness :
  memorize_passes_needed PatsyTokens.python_tokenize PatsyTokens.pretty_untokenize
    Tests.stateful_transform Tests.passes_factor ∅
  = Ok (2, Tests.passes_state, ∅)
  ∧ ∃ args,
      capture_obj_method_calls PatsyTokens.python_tokenize
        PatsyTokens.pretty_untokenize "_patsy_stobj1__bar__"
        (eval_code Tests.passes_state)
      = Ok [("_patsy_stobj1__bar__" +:+ ".transform",
             "_patsy_stobj1__bar__" +:+ ".transform" +:+ args)]
      ∧ String.prefix "(" args = true
      ∧ memorize_code Tests.passes_state !! "_patsy_stobj1__bar__"
        = Some ("_patsy_stobj1__bar__" +:+ ".memorize_chunk" +:+ args).
Proof.
  assert (Hrun : memorize_passes_needed PatsyTokens.python_tokenize
                   PatsyTokens.pretty_untokenize Tests.stateful_transform
                   Tests.passes_factor ∅
                 = Ok (2, Tests.passes_state, ∅)).
  { vm_compute. reflexivity. }
  split; [exact Hrun|].
  apply (memorize_code_from_transform_call PatsyTokens.python_tokenize
           PatsyTokens.pretty_untokenize Tests.stateful_transform
           Tests.passes_factor ∅ 2 Tests.passes_state ∅ Hrun).
  apply (bool_decide_unpack _). vm_compute. exact I.
Defined.

(** ** The call capturer *)

Lemma add_token_done c ty tok : done c = true → add_token c ty tok = Ok c.
Proof. intros Hd. unfold add_token. by rewrite Hd. Qed.

(** One step of a capturer that is not done, case by case. *)
Lemma add_token_step c ty tok :
  done c = false →
  add_token c ty tok =
    let d := depth_after (paren_depth c) tok in
    let toks := tokens c ++ [(ty, tok)] in
    if (0 <=? d)%Z then
      if started c then Ok (mkCapturer (func c) toks d true (d =? 0)%Z)
      else if String.eqb tok "(" then Ok (mkCapturer (func c) toks d true (d =? 0)%Z)
      else if bool_decide (ty = NAME) || String.eqb tok "."
      then Ok (mkCapturer (func c ++ [tok]) toks d false false)
      else Raise AssertionError
    else Raise AssertionError.
Proof.
  intros Hd. unfold add_token, depth_after, is_opener, is_closer. rewrite Hd.
  cbv zeta.
  destruct (0 <=? _)%Z; simpl; [|done].
  destruct (started c); simpl.
  - by destruct (_ =? 0)%Z.
  - destruct (String.eqb tok "("); simpl.
    + by destruct (_ =? 0)%Z.
    + destruct (bool_decide (ty = NAME) || String.eqb tok "."); simpl; done.
Qed.

Lemma opener_not_closer tok : is_opener tok = true → is_closer tok = false.
Proof.
  unfold is_opener, is_closer, string_in. simpl.
  rewrite !orb_false_r, !orb_true_iff, !String.eqb_eq.
  intros [->|[->| ->]]; reflexivity.
Qed.

Lemma feed_done c toks : done c = true → feed c toks = Ok c.
Proof.
  intros Hd. induction toks as [|[ty tok] toks IH]; simpl; [done|].
  by rewrite add_token_done.
Qed.

(** The path phase: names and dots go to [func] and to [tokens]. *)
Lemma feed_dotted_path toks : ∀ c path call,
  done c = false → started c = false → paren_depth c = 0%Z →
  dotted_path toks = Some (path, call) →
  feed c toks =
    feed (mkCapturer (func c ++ map snd path) (tokens c ++ path) 0 false false) call
  ∧ ∃ ty rest, call = (ty, "(") :: rest.
Proof.
  induction toks as [|[ty tok] toks IH]; intros c path call Hd Hs Hp; [done|].
  simpl. destruct (String.eqb tok "(") eqn:Hparen.
  - intros [= <- <-]. apply String.eqb_eq in Hparen as ->.
    rewrite !app_nil_r. split; [|by eauto].
    destruct c; simpl in *. by subst.
  - destruct ((bool_decide (ty = NAME) || String.eqb tok ".")
              && negb (is_opener tok) && negb (is_closer tok)) eqn:Hok; [|done].
    apply andb_true_iff in Hok as [[Hname Ho]%andb_true_iff Hc].
    apply negb_true_iff in Ho, Hc.
    destruct (dotted_path toks) as [[path' call']|] eqn:Hrest; simpl; [|done].
    intros [= <- <-].
    rewrite add_token_step by done. unfold depth_after.
    rewrite Ho, Hc, Hp, Hs, Hparen, Hname. simpl.
    edestruct (IH (mkCapturer (func c ++ [tok]) (tokens c ++ [(ty, tok)]) 0 false false))
      as [Hfeed Hcall]; [done..|reflexivity|].
    rewrite Hfeed. simpl. rewrite <- !app_assoc. simpl. done.
Qed.

(** The call phase: tokens are taken up to the closing bracket. *)
Lemma leb_0_of_nat (n : nat) : (0 <=? Z.of_nat n)%Z = true.
Proof. apply Z.leb_le. lia. Qed.

Lemma eqb_of_nat_S (n : nat) : (Z.of_nat (S n) =? 0)%Z = false.
Proof. apply Z.eqb_neq. lia. Qed.

Lemma feed_balanced_call toks : ∀ c d call,
  done c = false → started c = true → paren_depth c = Z.of_nat (S d) →
  balanced_call (S d) toks = Some call →
  feed c toks = Ok (mkCapturer (func c) (tokens c ++ call) 0 true true).
Proof.
  induction toks as [|[ty tok] toks IH]; intros c d call Hd Hs Hp; [done|].
  change (feed c ((ty, tok) :: toks))
    with (add_token c ty tok ≫= λ c', feed c' toks).
  rewrite add_token_step by done. unfold depth_after. rewrite Hs, Hp.
  cbn [balanced_call].
  destruct (is_opener tok) eqn:Ho.
  - rewrite (opener_not_closer _ Ho).
    destruct (balanced_call (S (S d)) toks) as [call'|] eqn:Hrest; [|done].
    intros [= <-].
    replace (Z.of_nat (S d) + 1)%Z with (Z.of_nat (S (S d))) by lia.
    cbv zeta. rewrite leb_0_of_nat, eqb_of_nat_S.
    cbn [mbind result_bind].
    rewrite (IH _ (S d) call') by done.
    cbn [func tokens]. by rewrite <- app_assoc.
  - destruct (is_closer tok) eqn:Hc.
    + replace (Z.of_nat (S d) - 1)%Z with (Z.of_nat d) by lia.
      cbv zeta. rewrite leb_0_of_nat. cbn [mbind result_bind].
      destruct d as [|d].
      * intros [= <-]. rewrite feed_done by done. done.
      * destruct (balanced_call (S d) toks) as [call'|] eqn:Hrest; [|done].
        intros [= <-]. rewrite eqb_of_nat_S.
        rewrite (IH _ d call') by done.
        cbn [func tokens]. by rewrite <- app_assoc.
    + destruct (balanced_call (S d) toks) as [call'|] eqn:Hrest; [|done].
      intros [= <-].
      cbv zeta. rewrite leb_0_of_nat, eqb_of_nat_S. cbn [mbind result_bind].
      rewrite (IH _ d call') by done.
      cbn [func tokens]. by rewrite <- app_assoc.
Qed.

(** A capture taken on its own is what a new capturer makes of the tokens
    after its occurrence. *)
Lemma feed_capture_one ty tok suffix name call :
  capture_one ((ty, tok), suffix) = Some (name, call) →
  ∃ c, feed (new_capturer ty tok) suffix = Ok c
       ∧ String.concat "" (func c) = name ∧ tokens c = call.
Proof.
  unfold capture_one. cbn [fst snd].
  destruct (dotted_path suffix) as [[path rest]|] eqn:Hpath; [|done].
  cbn [mbind option_bind].
  destruct (balanced_call 0 rest) as [body|] eqn:Hbody; [|done].
  cbn [mbind option_bind]. intros [= <- <-].
  destruct (feed_dotted_path suffix (new_capturer ty tok) path rest)
    as [Hfeed (ty' & rest' & ->)]; [done..|].
  rewrite Hfeed. cbn [new_capturer func tokens].
  change (balanced_call 0 ((ty', "(") :: rest'))
    with (balanced_call 1 rest' ≫= λ call, Some ((ty', "(") :: call)) in Hbody.
  destruct (balanced_call 1 rest') as [body'|] eqn:Hbody'; [|done].
  injection Hbody as <-.
  set (c0 := mkCapturer ([tok] ++ map snd path) ([(ty, tok)] ++ path) 0 false false).
  change (feed c0 ((ty', "(") :: rest'))
    with (add_token c0 ty' "(" ≫= λ c', feed c' rest').
  rewrite add_token_step by done.
  change (depth_after (paren_depth c0) "(") with 1%Z. cbv zeta.
  change (started c0) with false. cbn [Z.leb Z.compare Z.eqb String.eqb Ascii.eqb
    Bool.eqb mbind result_bind].
  rewrite (feed_balanced_call rest' _ 0 body') by done.
  eexists. split; [reflexivity|]. cbn [func tokens c0]. split; [done|].
  by rewrite <- app_assoc.
Qed.

Lemma add_token_all_Forall2 caps ty tok caps1 :
  add_token_all caps ty tok = Ok caps1
  ↔ Forall2 (λ c c1, add_token c ty tok = Ok c1) caps caps1.
Proof.
  revert caps1. induction caps as [|c caps IH]; intros caps1; simpl.
  - split; [intros [= <-]; constructor|]. by intros ->%Forall2_nil_inv_l.
  - split.
    + destruct (add_token c ty tok) as [c1| |] eqn:Hc; simpl; [|done..].
      destruct (add_token_all caps ty tok) as [rest| |] eqn:Hrest; simpl; [|done..].
      intros [= <-]. constructor; [done|]. by apply IH.
    + intros (c1 & rest & Hc & Hrest & ->)%Forall2_cons_inv_l.
      rewrite Hc. simpl. apply IH in Hrest. by rewrite Hrest.
Qed.

Lemma Forall2_feed_cons caps caps' ty tok rest :
  Forall2 (λ c c', feed c ((ty, tok) :: rest) = Ok c') caps caps'
  ↔ ∃ caps1, Forall2 (λ c c1, add_token c ty tok = Ok c1) caps caps1
             ∧ Forall2 (λ c1 c', feed c1 rest = Ok c') caps1 caps'.
Proof.
  revert caps'. induction caps as [|c caps IH]; intros caps'.
  - split.
    + intros ->%Forall2_nil_inv_l. exists []. split; constructor.
    + intros (caps1 & ->%Forall2_nil_inv_l & ->%Forall2_nil_inv_l). constructor.
  - split.
    + intros (c' & rest' & Hc & Hrest & ->)%Forall2_cons_inv_l.
      apply IH in Hrest as (caps1 & H1 & H2). simpl in Hc.
      destruct (add_token c ty tok) as [c1| |] eqn:Hc1; simpl in Hc; [|done..].
      exists (c1 :: caps1). split; by constructor.
    + intros (caps1 & H1 & H2).
      apply Forall2_cons_inv_l in H1 as (c1 & rest1 & Hc1 & Hrest1 & ->).
      apply Forall2_cons_inv_l in H2 as (c' & rest' & Hc' & Hrest' & ->).
      constructor.
      * simpl. by rewrite Hc1.
      * apply IH. eauto.
Qed.

(** The capturers run side by side do what each does alone: the loop
    succeeds exactly when every capturer, the ones it is given and the one of
    every occurrence, can be fed the tokens after its start. *)
Lemma capture_loop_Ok obj_name ats : ∀ caps res,
  capture_loop obj_name ats caps = Ok res
  ↔ ∃ caps' news,
      res = caps' ++ news
      ∧ Forall2 (λ c c', feed c (map astrip ats) = Ok c') caps caps'
      ∧ Forall2 (λ occ c', feed (new_capturer occ.1.1 occ.1.2) occ.2 = Ok c')
          (occurrences obj_name ats) news.
Proof.
  induction ats as [|[[[ty tok] org] props] ats IH]; intros caps res.
  - simpl. split.
    + intros [= <-]. exists caps, []. rewrite app_nil_r. split; [done|].
      split; [|constructor]. induction caps; by constructor.
    + intros (caps' & news & -> & Hcaps & ->%Forall2_nil_inv_l).
      rewrite app_nil_r. f_equal.
      induction Hcaps as [|c c' ?? [= ->] _ IHc]; [done|]. by rewrite IHc.
  - change (map astrip ((ty, tok, org, props) :: ats))
      with ((ty, tok) :: map astrip ats).
    change (occurrences obj_name ((ty, tok, org, props) :: ats))
      with (if bare_ref props && String.eqb tok obj_name
            then ((ty, tok), map astrip ats) :: occurrences obj_name ats
            else occurrences obj_name ats).
    simpl capture_loop. split.
    + destruct (add_token_all caps ty tok) as [caps1| |] eqn:Hall; simpl; [|done..].
      apply add_token_all_Forall2 in Hall.
      destruct (bare_ref props && String.eqb tok obj_name).
      * intros (X & news & -> & HX & Hnews)%IH.
        apply Forall2_app_inv_l in HX as (caps' & n & Hcaps' & Hn & ->).
        apply Forall2_cons_inv_l in Hn as (c' & nil' & Hc' & ->%Forall2_nil_inv_l & ->).
        exists caps', (c' :: news). split; [by rewrite <- app_assoc|].
        split; [apply Forall2_feed_cons; eauto|]. by constructor.
      * intros (caps' & news & -> & Hcaps' & Hnews)%IH.
        exists caps', news. split; [done|].
        split; [apply Forall2_feed_cons; eauto|done].
    + intros (caps' & news & -> & Hcaps & Hnews).
      apply Forall2_feed_cons in Hcaps as (caps1 & H1 & H2).
      apply add_token_all_Forall2 in H1. rewrite H1. simpl.
      destruct (bare_ref props && String.eqb tok obj_name).
      * apply Forall2_cons_inv_l in Hnews as (c' & news' & Hc' & Hnews' & ->).
        apply IH. exists (caps' ++ [c']), news'.
        split; [by rewrite <- app_assoc|]. split; [|done].
        apply Forall2_app; [done|]. by repeat constructor.
      * apply IH. eauto.
Qed.

Lemma feed_inv toks : ∀ c c',
  feed c toks = Ok c' →
  (0 ≤ paren_depth c)%Z →
  (done c = true → started c = true ∧ paren_depth c = 0%Z) →
  (0 ≤ paren_depth c')%Z
  ∧ (done c' = true → started c' = true ∧ paren_depth c' = 0%Z)
  ∧ ∃ fs ts, func c' = func c ++ fs ∧ tokens c' = tokens c ++ ts
             ∧ ts `prefix_of` toks ∧ (done c' = false → ts = toks).
Proof.
  induction toks as [|[ty tok] toks IH]; intros c c'.
  - simpl. intros [= <-] Hp Hdone. split; [done|]. split; [done|].
    exists [], []. by rewrite !app_nil_r.
  - destruct (done c) eqn:Hd.
    + rewrite feed_done by done. intros [= <-] Hp Hdone.
      split; [done|]. split; [by intros _; apply Hdone|].
      exists [], []. rewrite !app_nil_r.
      split; [done|]. split; [done|]. split; [apply prefix_nil|congruence].
    + simpl. rewrite add_token_step by done. cbv zeta.
      destruct (0 <=? depth_after (paren_depth c) tok)%Z eqn:Hle; [|done].
      apply Z.leb_le in Hle. intros Hfeed Hp _.
      assert (∀ c1, feed c1 toks = Ok c' →
                (0 ≤ paren_depth c1)%Z →
                (done c1 = true → started c1 = true ∧ paren_depth c1 = 0%Z) →
                tokens c1 = tokens c ++ [(ty, tok)] →
                (∃ f1, func c1 = func c ++ f1) →
                (0 ≤ paren_depth c')%Z
                ∧ (done c' = true → started c' = true ∧ paren_depth c' = 0%Z)
                ∧ ∃ fs ts, func c' = func c ++ fs ∧ tokens c' = tokens c ++ ts
                           ∧ ts `prefix_of` (ty, tok) :: toks
                           ∧ (done c' = false → ts = (ty, tok) :: toks)) as Hnext.
      { intros c1 Hc1 Hp1 Hd1 Ht1 [f1 Hf1].
        destruct (IH c1 c' Hc1 Hp1 Hd1) as (Hp' & Hd' & fs & ts & Hfs & Hts & Hpre & Hall).
        split; [done|]. split; [done|].
        exists (f1 ++ fs), ((ty, tok) :: ts).
        rewrite Hfs, Hf1, Hts, Ht1, <- !app_assoc. simpl.
        split; [done|]. split; [done|]. split; [by apply prefix_cons|].
        intros Hnd. by rewrite (Hall Hnd). }
      assert (∀ d : Z, (d =? 0)%Z = true → d = 0%Z) as Hz.
      { intros d. apply Z.eqb_eq. }
      destruct (started c).
      * apply (Hnext _ Hfeed); simpl; [done|by auto|done|].
        exists []. by rewrite app_nil_r.
      * destruct (String.eqb tok "(").
        -- apply (Hnext _ Hfeed); simpl; [done|by auto|done|].
           exists []. by rewrite app_nil_r.
        -- destruct (bool_decide (ty = NAME) || String.eqb tok "."); [|done].
           apply (Hnext _ Hfeed); simpl; [done|done|done|by eauto].
Qed.

Lemma string_prefix_app (x s : string) : String.prefix x (x +:+ s) = true.
Proof.
  induction x as [|a x IH]; simpl; [by destruct s|].
  by destruct (Ascii.ascii_dec a a).
Qed.

Lemma string_prefix_refl (x : string) : String.prefix x x = true.
Proof.
  induction x as [|a x IH]; simpl; [done|].
  by destruct (Ascii.ascii_dec a a).
Qed.

Lemma concat_cons_prefix (x : string) (l : list string) :
  String.prefix x (String.concat "" (x :: l)) = true.
Proof.
  destruct l as [|y l].
  - apply string_prefix_refl.
  - change (String.concat "" (x :: y :: l))
      with (x +:+ ("" +:+ String.concat "" (y :: l))).
    apply string_prefix_app.
Qed.

Lemma occurrences_start obj_name ats occ :
  occ ∈ occurrences obj_name ats → occ.1.2 = obj_name.
Proof.
  induction ats as [|a ats IH]; simpl; [by intros ?%elem_of_nil|].
  destruct (bare_ref (atok_props a) && String.eqb (atok_text a) obj_name) eqn:Hc; [|done].
  intros [->|Hocc]%elem_of_cons; [|by apply IH].
  apply andb_true_iff in Hc as [_ Heq]. by apply String.eqb_eq in Heq.
Qed.

(** X1: a capturer started at a token and fed the tokens after it keeps, as
    long as it succeeds, the start token followed by a prefix of those
    tokens (all of them while it is not done), a name path that begins with
    the start token, and a nesting depth that is never negative; it is done
    only once started and back at depth zero, and a capturer that is done
    ignores every further token. *)
Theorem FuncallCapturer_invariants ty tok toks c :
  feed (new_capturer ty tok) toks = Ok c →
  (∃ taken, tokens c = (ty, tok) :: taken ∧ taken `prefix_of` toks
            ∧ (done c = false → taken = toks))
  ∧ (∃ path, func c = tok :: path)
  ∧ (0 ≤ paren_depth c)%Z
  ∧ (done c = true → started c = true ∧ paren_depth c = 0%Z)
  ∧ (∀ more, done c = true → feed c more = Ok c).
Proof.
  intros Hfeed.
  destruct (feed_inv toks _ _ Hfeed) as (Hp & Hd & fs & ts & Hfs & Hts & Hpre & Hall);
    [done|done|].
  simpl in Hfs, Hts.
  split; [by exists ts|]. split; [by exists fs|]. split; [done|].
  split; [done|]. intros more Hdone. by apply feed_done.
Qed.

(** The capturer of [foo] in [foo.baz(bar) + b] stops at the closing
    parenthesis. *)
Lemma FuncallCapturer_invariants_witness :
  ∃ c, feed (new_capturer NAME "foo")
         [(OP, "."); (NAME, "baz"); (OP, "("); (NAME, "bar"); (OP, ")");
          (OP, "+"); (NAME, "b")] = Ok c
       ∧ tokens c = [(NAME, "foo"); (OP, "."); (NAME, "baz"); (OP, "(");
                     (NAME, "bar"); (OP, ")")]
       ∧ (0 ≤ paren_depth c)%Z
       ∧ feed c [(OP, ")")] = Ok c.
Proof.
  eexists. split; [vm_compute; reflexivity|].
  match goal with
  | |- tokens ?c = _ ∧ _ =>
      destruct (FuncallCapturer_invariants NAME "foo"
                  [(OP, "."); (NAME, "baz"); (OP, "("); (NAME, "bar"); (OP, ")");
                   (OP, "+"); (NAME, "b")] c)
        as (_ & _ & Hdepth & _ & Hmore); [vm_compute; reflexivity|]
  end.
  split; [reflexivity|]. split; [exact Hdepth|]. apply Hmore. reflexivity.
Defined.

Section CaptureFacts.
Variable python_tokenize : string → list Token.
Variable pretty_untokenize : list (token_type * string) → string.

Let capture := capture_obj_method_calls python_tokenize pretty_untokenize.
Let occs obj_name code := occurrences obj_name (annotated_tokens python_tokenize code).

Lemma capture_obj_method_calls_Ok obj_name code res :
  capture obj_name code = Ok res
  ↔ ∃ caps,
      Forall2 (λ occ c, feed (new_capturer occ.1.1 occ.1.2) occ.2 = Ok c)
        (occs obj_name code) caps
      ∧ res = map (render pretty_untokenize) caps.
Proof.
  unfold capture, capture_obj_method_calls, occs. split.
  - destruct (capture_loop _ _ []) as [caps| |] eqn:Hloop; simpl; [|done..].
    intros [= <-]. apply capture_loop_Ok in Hloop
      as (caps' & news & -> & ->%Forall2_nil_inv_l & Hnews).
    by exists news.
  - intros (caps & Hcaps & ->).
    assert (capture_loop obj_name (annotated_tokens python_tokenize code) []
            = Ok caps) as ->; [|done].
    apply capture_loop_Ok. exists [], caps. split; [done|]. split; [constructor|done].
Qed.

(** X2: [capture_obj_method_calls] succeeds exactly when the capturer of
    every bare reference to the name, taken alone on the tokens after that
    reference, succeeds, and then it returns the rendering of those
    capturers in the order of the references: one pair per reference, whose
    call name begins with the name.  Code without a bare reference to the
    name gives the empty list. *)
Theorem capture_obj_method_calls_independent obj_name code :
  (∀ res,
     capture obj_name code = Ok res
     ↔ ∃ caps,
         Forall2 (λ occ c, feed (new_capturer occ.1.1 occ.1.2) occ.2 = Ok c)
           (occs obj_name code) caps
         ∧ res = map (render pretty_untokenize) caps)
  ∧ (∀ res, capture obj_name code = Ok res →
       length res = length (occs obj_name code)
       ∧ ∀ call, call ∈ res → String.prefix obj_name call.1 = true)
  ∧ (occs obj_name code = [] → capture obj_name code = Ok []).
Proof.
  split; [apply capture_obj_method_calls_Ok|]. split.
  - intros res (caps & Hcaps & ->)%capture_obj_method_calls_Ok.
    rewrite length_map. split.
    + symmetry. by apply Forall2_length in Hcaps.
    + intros call (c & -> & Hc)%list_elem_of_fmap.
      apply list_elem_of_lookup in Hc as [i Hi].
      destruct (Forall2_lookup_r _ _ _ _ _ Hcaps Hi) as (occ & Hocc & Hfeed).
      destruct occ as [[ty tok] suffix]. simpl in Hfeed.
      apply feed_inv in Hfeed as (_ & _ & path & _ & Hpath & _); [|done..].
      unfold render. simpl in *. rewrite Hpath.
      assert (tok = obj_name) as <-.
      { apply (occurrences_start obj_name
                 (annotated_tokens python_tokenize code) ((ty, tok), suffix)).
        apply list_elem_of_lookup. eauto. }
      apply concat_cons_prefix.
  - intros Hnone. apply capture_obj_method_calls_Ok.
    exists []. rewrite Hnone. split; [constructor|done].
Qed.

(** X3: when every bare reference to the name is directly followed by a
    dotted path and a call with balanced brackets, [capture_obj_method_calls]
    returns, in the order of the references, the dotted call name and the
    normalized text of the call of each reference, each captured as if it
    were alone, also when one call lies inside the arguments of another. *)
Theorem capture_obj_method_calls_by_occurrence obj_name code calls :
  mapM capture_one (occs obj_name code) = Some calls →
  capture obj_name code
  = Ok (map (λ call, (call.1, pretty_untokenize call.2)) calls).
Proof.
  intros Hcalls. apply mapM_Some in Hcalls.
  apply capture_obj_method_calls_Ok.
  revert Hcalls. generalize (occs obj_name code). intros l Hcalls.
  induction Hcalls as [|[[ty tok] suffix] [name call] l calls Hone _ IH].
  - exists []. split; [constructor|done].
  - destruct IH as (caps & Hcaps & Heq).
    apply feed_capture_one in Hone as (c & Hfeed & Hname & Hcall).
    exists (c :: caps). split; [by constructor|].
    subst name call. cbn [map fst snd]. by rewrite Heq.
Qed.

End CaptureFacts.

(** [test_capture_obj_method_calls]: in ["foo.bar(foo.baz(quux))"] the
    second reference to [foo] lies inside the call of the first. *)
Lemma capture_obj_method_calls_by_occurrence_witness :
  capture_obj_method_calls PatsyTokens.python_tokenize PatsyTokens.pretty_untokenize
    "foo" "foo.bar(foo.baz(quux))"
  = Ok [("foo.bar", "foo.bar(foo.baz(quux))"); ("foo.baz", "foo.baz(quux)")].
Proof.
  rewrite (capture_obj_method_calls_by_occurrence PatsyTokens.python_tokenize
             PatsyTokens.pretty_untokenize "foo" "foo.bar(foo.baz(quux))"
             [("foo.bar", [(NAME, "foo"); (OP, "."); (NAME, "bar"); (OP, "(");
                           (NAME, "foo"); (OP, "."); (NAME, "baz"); (OP, "(");
                           (NAME, "quux"); (OP, ")"); (OP, ")")]);
              ("foo.baz", [(NAME, "foo"); (OP, "."); (NAME, "baz"); (OP, "(");
                           (NAME, "quux"); (OP, ")")])]).
  - vm_compute. reflexivity.
  - vm_compute. reflexivity.
Defined.

(** In ["a + foo.baz(bar) + b.c(d)"] there is one reference to [foo]. *)
Lemma capture_obj_method_calls_independent_witness :
  ∃ res,
    capture_obj_method_calls PatsyTokens.python_tokenize PatsyTokens.pretty_untokenize
      "foo" "a + foo.baz(bar) + b.c(d)" = Ok res
    ∧ length res = 1
    ∧ ∀ call, call ∈ res → String.prefix "foo" call.1 = true.
Proof.
  eexists. split; [vm_compute; reflexivity|].
  match goal with
  | |- length ?res = 1 ∧ _ =>
      destruct (capture_obj_method_calls_independent PatsyTokens.python_tokenize
                  PatsyTokens.pretty_untokenize "foo" "a + foo.baz(bar) + b.c(d)")
        as (_ & Hres & _);
      destruct (Hres res) as [Hlen Hpre]; [vm_compute; reflexivity|]
  end.
  split; [exact Hlen|exact Hpre].
Defined.

(** ** More on the scheduler *)

Section ScheduleFacts.
Context {Value Store : Type}.
Variable python_tokenize : string → list Token.
Variable pretty_untokenize : list (token_type * string) → string.
Variable stateful_transform : Value → option (Store → Value * Store).

Lemma layered_length mc unsorted bins :
  layered python_tokenize mc unsorted bins → length bins ≤ size unsorted.
Proof.
  induction 1 as [|unsorted pass_bin rest Hne Hbin Hrest IH]; simpl; [lia|].
  assert (pass_bin ⊆ unsorted) as Hsub.
  { intros name Hin. by apply Hbin in Hin as [? _]. }
  assert (size (unsorted ∖ pass_bin) < size unsorted); [|lia].
  apply subset_size. apply set_choose_L in Hne as [x Hx]. set_solver.
Qed.

Lemma layered_first mc unsorted bins bin name :
  layered python_tokenize mc unsorted bins →
  bins !! 0 = Some bin →
  name ∈ bin ↔
    name ∈ unsorted
    ∧ ∃ c, mc !! name = Some c
           ∧ ∀ other, other ∈ unsorted → other ≠ name →
                      ¬ bare_reference_to python_tokenize other c.
Proof.
  destruct 1 as [|unsorted pass_bin rest Hne Hbin Hrest]; [done|].
  intros [= <-]. rewrite Hbin. split.
  - intros [Hu (c & Hc & Href)]. split; [done|]. exists c. split; [done|].
    intros other Ho Hneq.
    rewrite has_bare_variable_reference_false in Href. apply Href. set_solver.
  - intros [Hu (c & Hc & Href)]. split; [done|]. exists c. split; [done|].
    apply has_bare_variable_reference_false. intros other Ho. apply Href; set_solver.
Qed.

Lemma layered_tight mc unsorted bins :
  layered python_tokenize mc unsorted bins →
  ∀ k bin name, bins !! S k = Some bin → name ∈ bin →
    ∃ c prev other,
      mc !! name = Some c ∧ bins !! k = Some prev ∧ other ∈ prev
      ∧ other ≠ name ∧ bare_reference_to python_tokenize other c.
Proof.
  induction 1 as [|unsorted pass_bin rest Hne Hbin Hrest IH];
    intros k bin name Hk Hin; [done|].
  destruct k as [|k]; [|by apply (IH k bin name)].
  simpl in Hk. inversion Hrest as [|U' bin' rest' Hne' Hbin' Hrest' HU Hbins];
    subst; [done|].
  simpl in Hk. injection Hk as ->.
  apply Hbin' in Hin as (Hu & c & Hc & Hnone).
  assert (name ∈ unsorted ∧ name ∉ pass_bin) as [Hname Hnot] by set_solver.
  destruct (has_bare_variable_reference python_tokenize (unsorted ∖ {[name]}) c)
    eqn:Href.
  - apply has_bare_variable_reference_true in Href as (other & Ho & Hr).
    rewrite has_bare_variable_reference_false in Hnone.
    exists c, pass_bin, other. split; [done|]. split; [done|].
    assert (other ≠ name) by set_solver.
    destruct (decide (other ∈ pass_bin)) as [Hp|Hp]; [done|].
    exfalso. apply (Hnone other); [set_solver|done].
  - exfalso. apply Hnot, Hbin. eauto.
Qed.

(** X5: when [memorize_passes_needed] succeeds, there are at most as many
    passes as instances, and none exactly when there are no instances; the
    first bin holds exactly the instances whose memorize code has no bare
    reference to another instance; and every instance of a later bin has, in
    its memorize code, a bare reference to an instance of the bin just
    before, so no instance could be memorized a pass earlier. *)
Theorem pass_bins_tight (self : EvalFactor Value) (σ : Store) n state σ' :
  memorize_passes_needed python_tokenize pretty_untokenize stateful_transform self σ
    = Ok (n, state, σ') →
  n ≤ size (transforms state)
  ∧ (n = 0 ↔ transforms state = ∅)
  ∧ (∀ bin name, pass_bins state !! 0 = Some bin →
       name ∈ bin ↔
         name ∈ dom (transforms state)
         ∧ ∃ c, memorize_code state !! name = Some c
                ∧ ∀ other, other ∈ dom (transforms state) → other ≠ name →
                           ¬ bare_reference_to python_tokenize other c)
  ∧ (∀ k bin name, pass_bins state !! S k = Some bin → name ∈ bin →
       ∃ c prev other,
         memorize_code state !! name = Some c
         ∧ pass_bins state !! k = Some prev ∧ other ∈ prev ∧ other ≠ name
         ∧ bare_reference_to python_tokenize other c).
Proof.
  intros Hok. apply memorize_passes_needed_Ok in Hok as (-> & Hlay & _).
  split; [|split; [|split]].
  - rewrite <- size_dom. by apply layered_length in Hlay.
  - split.
    + intros Hlen. apply dom_empty_inv_L.
      destruct (pass_bins state) eqn:Hbins; [|done]. by inversion Hlay.
    + intros Hempty. rewrite Hempty, dom_empty_L in Hlay.
      inversion Hlay as [|U bin rest Hne Hbin Hrest HU Hbins]; [done|].
      exfalso. apply set_choose_L in Hne as [x Hx].
      apply Hbin in Hx as [Hx _]. set_solver.
  - intros bin name Hbin. by apply (layered_first _ _ _ _ _ Hlay).
  - by apply (layered_tight _ _ _ Hlay).
Qed.

(** X6: [has_bare_variable_reference] answers true exactly when some token
    of the code is a bare reference whose text is one of the names; so never
    for the empty set of names, and for a union of sets when it does for one
    of them. *)
Theorem has_bare_variable_reference_spec (names names' : gset string) (code : string) :
  (has_bare_variable_reference python_tokenize names code = true
   ↔ ∃ name, name ∈ names ∧ bare_reference_to python_tokenize name code)
  ∧ has_bare_variable_reference python_tokenize ∅ code = false
  ∧ has_bare_variable_reference python_tokenize (names ∪ names') code
    = has_bare_variable_reference python_tokenize names code
      || has_bare_variable_reference python_tokenize names' code.
Proof.
  split; [apply has_bare_variable_reference_true|]. split.
  - apply has_bare_variable_reference_false. set_solver.
  - apply eq_true_iff_eq.
    rewrite orb_true_iff, !has_bare_variable_reference_true. set_solver.
Qed.

End ScheduleFacts.

(** The schedule of [test_EvalFactor_memorize_passes_needed] has 2 passes
    for 4 instances, and the instance of [bar], in the second bin, refers
    to an instance of the first. *)
Lemma pass_bins_tight_witness :
  2 ≤ size (transforms Tests.passes_state)
  ∧ ∃ c prev other,
      memorize_code Tests.passes_state !! "_patsy_stobj1__bar__" = Some c
      ∧ pass_bins Tests.passes_state !! 0 = Some prev ∧ other ∈ prev
      ∧ other ≠ "_patsy_stobj1__bar__"
      ∧ bare_reference_to PatsyTokens.python_tokenize other c.
Proof.
  assert (Hrun : memorize_passes_needed PatsyTokens.python_tokenize
                   PatsyTokens.pretty_untokenize Tests.stateful_transform
                   Tests.passes_factor ∅
                 = Ok (2, Tests.passes_state, ∅)).
  { vm_compute. reflexivity. }
  destruct (pass_bins_tight PatsyTokens.python_tokenize PatsyTokens.pretty_untokenize
              Tests.stateful_transform Tests.passes_factor ∅ 2 Tests.passes_state ∅
              Hrun) as (Hle & _ & _ & Htight).
  split; [exact Hle|].
  apply (Htight 0 {[ "_patsy_stobj1__bar__" ]}).
  - vm_compute. reflexivity.
  - apply elem_of_singleton. reflexivity.
Defined.

(** A set of names is referred to by the code of the first test. *)
Lemma has_bare_variable_reference_spec_witness :
  has_bare_variable_reference PatsyTokens.python_tokenize {[ "x"; "q" ]}
    "foo(x) + bar.q" = true
  ∧ ∃ name, name ∈ ({[ "x"; "q" ]} : gset string)
            ∧ bare_reference_to PatsyTokens.python_tokenize name "foo(x) + bar.q".
Proof.
  destruct (has_bare_variable_reference_spec PatsyTokens.python_tokenize
              {[ "x"; "q" ]} ∅ "foo(x) + bar.q") as (Hiff & _ & _).
  assert (Hrun : has_bare_variable_reference PatsyTokens.python_tokenize
                   {[ "x"; "q" ]} "foo(x) + bar.q" = true).
  { vm_compute. reflexivity. }
  split; [exact Hrun|]. apply Hiff. exact Hrun.
Defined.

(** ** Evaluation *)

Lemma mapping_get_Dict {Value : Type} (d : gmap string Value) key :
  mapping_get (Dict d) key = d !! key.
Proof. unfold mapping_get. simpl. by destruct (d !! key). Qed.

Lemma mapping_get_Lookup {Value : Type} (ds : list (Mapping Value)) key :
  mapping_get (Lookup ds) key =
    match ds with
    | [] => None
    | d :: ds' =>
        match mapping_get d key with
        | Some v => Some v
        | None => mapping_get (Lookup ds') key
        end
    end.
Proof.
  destruct ds as [|d ds']; [done|].
  unfold mapping_get. simpl.
  by destruct (mapping_getitem d key).
Qed.

Section LayerFacts.
Context {Value : Type}.

(** The two namespaces evaluation is given, key by key. *)
Lemma eval_namespace_layers_aux (self : EvalFactor Value)
    (state : State Value) (data : gmap string Value) :
  let outer key := mapping_get (Lookup (map Dict (_namespaces (_eval_env self)))) key in
  (∀ key,
     mapping_get
       (VarLookupDict_new
          (VarLookupDict_new [Dict data; Dict (transforms state)]
             :: map Dict (_namespaces (_eval_env self)))) key
     = match data !! key with
       | Some v => Some v
       | None =>
           match transforms state !! key with
           | Some v => Some v
           | None => outer key
           end
       end)
  ∧ (∀ key,
       mapping_get
         (VarLookupDict_new (Dict data :: map Dict (_namespaces (_eval_env self)))) key
       = match data !! key with
         | Some v => Some v
         | None => outer key
         end).
Proof.
  intros outer. split; intros key; unfold VarLookupDict_new.
  - repeat rewrite (mapping_get_Lookup (_ :: _)).
    rewrite !mapping_get_Dict, !lookup_empty.
    destruct (data !! key); [done|].
    destruct (transforms state !! key); [done|].
    by rewrite (mapping_get_Lookup []).
  - repeat rewrite (mapping_get_Lookup (_ :: _)).
    rewrite !mapping_get_Dict, !lookup_empty.
    by destruct (data !! key).
Qed.

End LayerFacts.

Section EvalFacts.
Context {Value Store : Type}.
Variable python_tokenize : string → list Token.
Variable pretty_untokenize : list (token_type * string) → string.
Variable stateful_transform : Value → option (Store → Value * Store).
Variable py_eval :
  string → Z → (string → option Value) → Store → result (Value * Store).

(** X7: [_eval] hands Python's [eval] a namespace in which the data come
    first, then the transform instances, then the namespaces of the
    environment in their order; [EvalEnvironment.eval] with the data as
    inner namespace has the data first and then the environment. *)
Theorem eval_namespace_layers (self : EvalFactor Value) (code : string)
    (state : State Value) (data : gmap string Value) (σ : Store) :
  let env := _eval_env self in
  let outer key := mapping_get (Lookup (map Dict (_namespaces env))) key in
  (∃ ns, _eval py_eval self code state data σ = py_eval code (flags env) ns σ
         ∧ ∀ key, ns key =
             match data !! key with
             | Some v => Some v
             | None =>
                 match transforms state !! key with
                 | Some v => Some v
                 | None => outer key
                 end
             end)
  ∧ (∃ ns, EvalEnvironment_eval py_eval env code (Dict data) σ
           = py_eval code (flags env) ns σ
           ∧ ∀ key, ns key =
               match data !! key with
               | Some v => Some v
               | None => outer key
               end).
Proof.
  intros env outer.
  destruct (eval_namespace_layers_aux self state data) as [Hin Hout].
  split; eexists; (split; [reflexivity|]); intros key; [apply Hin|apply Hout].
Qed.

End EvalFacts.

(** ** Factors without stateful transforms *)

Lemma map_astrip_annotate pd toks : map astrip (annotate pd toks) = map strip toks.
Proof.
  revert pd. induction toks as [|[[ty tok] org] toks IH]; intros pd; [done|].
  simpl. by rewrite IH.
Qed.

Section NoStatefulCall.
Context {Value Store : Type}.
Variable python_tokenize : string → list Token.
Variable pretty_untokenize : list (token_type * string) → string.
Variable stateful_transform : Value → option (Store → Value * Store).
Variable py_eval :
  string → Z → (string → option Value) → Store → result (Value * Store).

(** No bare call of the code resolves to a stateful transform. *)
Let no_stateful_call (self : EvalFactor Value) (ats : list AnnotatedToken) : Prop :=
  ∀ a, a ∈ ats →
    bare_ref (atok_props a) = true → bare_funcall (atok_props a) = true →
    mapping_get (namespace (_eval_env self)) (atok_text a) ≫= stateful_transform = None.

Lemma replace_loop_no_stateful self ats :
  no_stateful_call self ats →
  ∀ acc st,
    replace_loop (new_name_maker stateful_transform self) ats acc st
    = (acc ++ map astrip ats, st).
Proof.
  induction ats as [|[[[ty tok] org] props] ats IH]; intros Hnone acc st.
  - simpl. by rewrite app_nil_r.
  - assert (no_stateful_call self ats) as Hrest.
    { intros a Ha. apply Hnone. by right. }
    simpl. destruct (bare_ref props && bare_funcall props) eqn:Hcall.
    + apply andb_true_iff in Hcall as [Hb Hf].
      specialize (Hnone (ty, tok, org, props) ltac:(left) Hb Hf).
      unfold atok_text in Hnone. simpl in Hnone.
      unfold new_name_maker. destruct st as [[i tr] σ]. rewrite Hnone.
      rewrite (IH Hrest). by rewrite <- app_assoc.
    + rewrite (IH Hrest). by rewrite <- app_assoc.
Qed.

(** X8: for a factor none of whose bare calls resolves to a stateful
    transform, [memorize_passes_needed] returns 0 and leaves no instance,
    no memorize code, no pass bin, the store as it was, and as evaluation
    code the normalizer's rendering of the tokens of the code; and, for an
    evaluator that only looks names up, [eval] then gives what evaluating
    that code in the environment over the data alone gives. *)
Theorem no_stateful_call_schedule (self : EvalFactor Value) (σ : Store) :
  no_stateful_call self (annotated_tokens python_tokenize (code self)) →
  (∀ expr fl ns ns' σ1, (∀ key, ns key = ns' key) →
     py_eval expr fl ns σ1 = py_eval expr fl ns' σ1) →
  let state :=
    mkState ∅ (pretty_untokenize (map strip (python_tokenize (code self)))) ∅ [] in
  memorize_passes_needed python_tokenize pretty_untokenize stateful_transform self σ
    = Ok (0, state, σ)
  ∧ ∀ data σ1,
      eval py_eval self state data σ1
      = EvalEnvironment_eval py_eval (_eval_env self) (eval_code state) (Dict data) σ1.
Proof.
  intros Hnone Hext state. split.
  - unfold memorize_passes_needed, replace_bare_funcalls_st.
    rewrite (replace_loop_no_stateful self _ Hnone). simpl.
    unfold annotated_tokens. rewrite map_astrip_annotate.
    rewrite dom_empty_L.
    assert (has_bare_variable_reference python_tokenize ∅ (code self) = false) as ->.
    { apply has_bare_variable_reference_false. set_solver. }
    rewrite elements_empty, size_empty. simpl. done.
  - intros data σ1.
    destruct (eval_namespace_layers_aux self state data) as [Hin Hout].
    unfold eval, _eval, EvalEnvironment_eval. apply Hext. intros key.
    rewrite Hin, Hout. simpl. rewrite lookup_empty. done.
Qed.

End NoStatefulCall.

(** The evaluator of the tests only looks names up. *)
Lemma Tests_eval_ext (ns ns' : string → option Tests.Value) :
  (∀ key, ns key = ns' key) →
  ∀ fuel,
    (∀ toks σ, Tests.eval_sum fuel ns toks σ = Tests.eval_sum fuel ns' toks σ)
    ∧ (∀ acc toks σ,
         Tests.eval_rest fuel ns acc toks σ = Tests.eval_rest fuel ns' acc toks σ)
    ∧ (∀ toks σ, Tests.eval_atom fuel ns toks σ = Tests.eval_atom fuel ns' toks σ).
Proof.
  intros Hext fuel. induction fuel as [|fuel (IHsum & IHrest & IHatom)].
  - by repeat split.
  - split; [|split].
    + intros toks σ. simpl. rewrite IHatom.
      destruct (Tests.eval_atom fuel ns' toks σ) as [[[v toks'] σ']| |]; simpl; [|done..].
      apply IHrest.
    + intros acc toks σ. simpl. destruct toks as [|plus toks1]; [done|].
      destruct (Tests.is_op plus "+"); [|done]. rewrite IHatom.
      destruct (Tests.eval_atom fuel ns' toks1 σ) as [[[w toks2] σ']| |]; simpl; [|done..].
      destruct (Tests.add_values acc w); simpl; [|done..]. apply IHrest.
    + intros toks σ. simpl. destruct toks as [|name toks1]; [done|].
      destruct (Tests.is_name name); [|done]. rewrite Hext.
      destruct (ns' (tok_text name)) as [v|]; [|done].
      destruct toks1 as [|dot [|method [|paren toks2]]]; try done.
      destruct (_ && _ && _); [|done]. by rewrite IHsum.
Qed.

Lemma Tests_py_eval_ext expr fl (ns ns' : string → option Tests.Value) σ :
  (∀ key, ns key = ns' key) → Tests.py_eval expr fl ns σ = Tests.py_eval expr fl ns' σ.
Proof.
  intros Hext. unfold Tests.py_eval.
  by rewrite (proj1 (Tests_eval_ext ns ns' Hext _)).
Qed.

(** The factor ["x + y"] needs no pass, and its value on the data of the
    end-to-end test is the sum of the two columns. *)
Lemma no_stateful_call_schedule_witness :
  memorize_passes_needed PatsyTokens.python_tokenize PatsyTokens.pretty_untokenize
    Tests.stateful_transform Tests.plain_factor ∅
  = Ok (0, mkState ∅ "x + y" ∅ [], ∅)
  ∧ eval Tests.py_eval Tests.plain_factor (mkState ∅ "x + y" ∅ []) Tests.all_data ∅
    = EvalEnvironment_eval Tests.py_eval Tests.end_to_end_env "x + y"
        (Dict Tests.all_data) ∅.
Proof.
  destruct (no_stateful_call_schedule PatsyTokens.python_tokenize
              PatsyTokens.pretty_untokenize Tests.stateful_transform Tests.py_eval
              Tests.plain_factor ∅) as [Hrun Heval].
  - intros a Ha _ Hcall. apply list_elem_of_In in Ha. vm_compute in Ha.
    destruct Ha as [<-|[<-|[<-|[]]]]; discriminate Hcall.
  - intros expr fl ns ns' σ1 Hext. by apply Tests_py_eval_ext.
  - split; [exact Hrun|]. apply Heval.
Defined.

(** ** More on VarLookupDict *)

Section VarLookupDictMore.
Context {Value : Type}.
Implicit Types (h : VarLookupDict.Heap Value) (dicts : list nat).

(** Reading through a new [VarLookupDict] is reading the mappings it was
    given, in their order. *)
Lemma getitem_init dicts h key :
  (∀ d, d ∈ dicts → is_Some (h !! d)) →
  VarLookupDict.getitem (VarLookupDict.init dicts h).1 key (VarLookupDict.init dicts h).2
  = getitem_loop (VarLookupDict.dict_get h) dicts key.
Proof.
  intros Hdicts. unfold VarLookupDict.init, VarLookupDict.getitem. simpl.
  unfold VarLookupDict.dict_get at 1. rewrite lookup_insert_eq. simpl.
  rewrite lookup_empty. apply getitem_loop_ext. intros d Hd.
  unfold VarLookupDict.dict_get. rewrite lookup_insert_ne; [done|].
  intros Heq. apply (init_zeroth_fresh dicts h d); [by apply Hdicts|done].
Qed.


Lemma contains_spec (ds : VarLookupDict.t) h key :
  VarLookupDict.contains ds key h = true
  ↔ ∃ d, d ∈ VarLookupDict._dicts ds ∧ is_Some (VarLookupDict.dict_get h d key).
Proof.
  unfold VarLookupDict.contains, VarLookupDict.getitem. split.
  - destruct (getitem_loop _ _ key) as [v| |] eqn:Hget; [|done..].
    intros _. apply getitem_loop_Ok in Hget as (i & d & Hi & Hv & _).
    exists d. split; [apply list_elem_of_lookup; eauto|by rewrite Hv].
  - intros (d & Hd & Hv).
    destruct (getitem_loop_total (VarLookupDict.dict_get h) (VarLookupDict._dicts ds) key)
      as [[v ->]|Hnone]; [done|].
    rewrite getitem_loop_KeyError in Hnone. rewrite (Hnone d Hd) in Hv.
    by destruct Hv.
Qed.

(** X9: for every [VarLookupDict] of the store, whatever was assigned
    through it before, [key in ds] holds exactly when one of its layers has
    the key, [ds.get(key, default)] is the looked-up value when the lookup
    succeeds and [default] when no layer has the key; after
    [ds[key] = value] the key is in [ds] and [get] returns [value], and the
    answers for the other keys are as before.  For a new object the layers
    that can hold a key are the mappings it was given. *)
Theorem VarLookupDict_contains_get :
  (∀ (ds : VarLookupDict.t) dicts h,
     VarLookupDict.wf ds dicts h →
     (∀ key, VarLookupDict.contains ds key h = true
             ↔ ∃ d, d ∈ VarLookupDict._dicts ds
                    ∧ is_Some (VarLookupDict.dict_get h d key))
     ∧ (∀ key default v, VarLookupDict.getitem ds key h = Ok v →
          VarLookupDict.get ds key default h = Some v)
     ∧ (∀ key default,
          (∀ d, d ∈ VarLookupDict._dicts ds → VarLookupDict.dict_get h d key = None) →
          VarLookupDict.get ds key default h = default)
     ∧ (∀ key value default,
          ∃ h2, VarLookupDict.setitem ds key value h = Ok h2
                ∧ VarLookupDict.wf ds dicts h2
                ∧ VarLookupDict.contains ds key h2 = true
                ∧ VarLookupDict.get ds key default h2 = Some value
                ∧ ∀ key', key' ≠ key →
                    VarLookupDict.contains ds key' h2 = VarLookupDict.contains ds key' h
                    ∧ VarLookupDict.get ds key' default h2
                      = VarLookupDict.get ds key' default h))
  ∧ (∀ dicts h,
       (∀ d, d ∈ dicts → is_Some (h !! d)) →
       ∀ key,
         VarLookupDict.contains (VarLookupDict.init dicts h).1 key
           (VarLookupDict.init dicts h).2 = true
         ↔ ∃ d, d ∈ dicts ∧ is_Some (VarLookupDict.dict_get h d key)).
Proof.
  split.
  - intros ds dicts h Hwf. split; [|split; [|split]].
    + intros key. apply contains_spec.
    + intros key default v Hget. unfold VarLookupDict.get. by rewrite Hget.
    + intros key default Hnone. unfold VarLookupDict.get, VarLookupDict.getitem.
      apply getitem_loop_KeyError in Hnone. by rewrite Hnone.
    + intros key value default.
      destruct (wf_setitem_facts ds dicts h key value Hwf)
        as (h2 & Hset & Hwf2 & Hget & Hother & _ & _).
      exists h2. split; [done|]. split; [done|].
      unfold VarLookupDict.contains, VarLookupDict.get. rewrite Hget.
      split; [done|]. split; [done|].
      intros key' Hkey'. by rewrite (Hother key' Hkey').
  - intros dicts h Hdicts key. unfold VarLookupDict.contains.
    rewrite getitem_init by done. split.
    + destruct (getitem_loop _ dicts key) as [v| |] eqn:Hget; [|done..].
      intros _. apply getitem_loop_Ok in Hget as (i & d & Hi & Hv & _).
      exists d. split; [apply list_elem_of_lookup; eauto|by rewrite Hv].
    + intros (d & Hd & Hv).
      destruct (getitem_loop_total (VarLookupDict.dict_get h) dicts key)
        as [[v ->]|Hnone]; [done|].
      rewrite getitem_loop_KeyError in Hnone. rewrite (Hnone d Hd) in Hv.
      by destruct Hv.
Qed.


End VarLookupDictMore.

(** [test_VarLookupDict], continued: after [ds["a"] = 10], [ds["c"] = 7]
    puts ["c"] in [ds], leaves ["b"] in it, and [get] of ["zz"] still gives
    the default. *)
Lemma VarLookupDict_contains_get_witness :
  let d1 : gmap string Z := {[ "a" := 1%Z ]} in
  let d2 : gmap string Z := {[ "a" := 2%Z; "b" := 3%Z ]} in
  let h : VarLookupDict.Heap Z := {[ 0 := d1; 1 := d2 ]} in
  let ds := (VarLookupDict.init [0; 1] h).1 in
  let h1 := (VarLookupDict.init [0; 1] h).2 in
  ∃ h2 h3,
    VarLookupDict.setitem ds "a" 10%Z h1 = Ok h2
    ∧ VarLookupDict.setitem ds "c" 7%Z h2 = Ok h3
    ∧ VarLookupDict.contains ds "c" h3 = true
    ∧ VarLookupDict.get ds "c" None h3 = Some 7%Z
    ∧ VarLookupDict.get ds "a" None h3 = Some 10%Z.
Proof.
  intros d1 d2 h ds h1.
  assert (Hdicts : ∀ d, d ∈ [0; 1] → is_Some (h !! d)).
  { intros d Hd. apply elem_of_cons in Hd as [->|Hd].
    - exists d1. reflexivity.
    - apply elem_of_cons in Hd as [->|Hd].
      + exists d2. reflexivity.
      + by apply elem_of_nil in Hd. }
  assert (Hwf1 : VarLookupDict.wf ds [0; 1] h1).
  { exists 2. split; [reflexivity|]. split; [eexists; reflexivity|].
    split.
    - intros Hin. apply elem_of_cons in Hin as [Hin|Hin]; [discriminate|].
      apply elem_of_cons in Hin as [Hin|Hin]; [discriminate|].
      by apply elem_of_nil in Hin.
    - intros d Hd. apply elem_of_cons in Hd as [->|Hd]; [eexists; reflexivity|].
      apply elem_of_cons in Hd as [->|Hd]; [eexists; reflexivity|].
      by apply elem_of_nil in Hd. }
  destruct (@VarLookupDict_contains_get Z) as [Hany _].
  destruct (Hany ds [0; 1] h1 Hwf1) as (_ & _ & _ & Hset1).
  destruct (Hset1 "a" 10%Z None) as (h2 & Hs2 & Hwf2 & _ & Hget2 & _).
  destruct (Hany ds [0; 1] h2 Hwf2) as (_ & _ & _ & Hset2).
  destruct (Hset2 "c" 7%Z None) as (h3 & Hs3 & _ & Hin3 & Hget3 & Hother3).
  exists h2, h3. split; [exact Hs2|]. split; [exact Hs3|].
  split; [exact Hin3|]. split; [exact Hget3|].
  destruct (Hother3 "a") as [_ Hsame]; [discriminate|].
  rewrite Hsame. exact Hget2.
Defined.


(** ** EvalEnvironment.add_outer_namespace *)

Lemma getitem_loop_app {D Value : Type} (get : D → string → option Value)
    (l l' : list D) key :
  getitem_loop get (l ++ l') key =
    match getitem_loop get l key with
    | Ok v => Ok v
    | _ => getitem_loop get l' key
    end.
Proof.
  induction l as [|d l IH]; simpl; [done|]. by destruct (get d key).
Qed.

Section AddOuterNamespace.
Context {Value : Type}.
Implicit Types (h : VarLookupDict.Heap Value) (env : EvalEnvironmentObj.t).

(** X11: [add_outer_namespace] keeps the namespaces the environment has, in
    their order, and puts a namespace that is not among them last; adding
    the same namespace again changes nothing, so the chain does not grow;
    a name the environment already resolves keeps its value, and a name it
    does not resolve is looked up in the added namespace; the environment
    stays equal to what it was exactly when the namespace was one of its
    own. *)
Theorem add_outer_namespace_spec env (namespace : nat) h :
  (∀ d, d ∈ EvalEnvironmentObj._namespaces env → is_Some (h !! d)) →
  is_Some (h !! namespace) →
  let env' := EvalEnvironmentObj.add_outer_namespace env namespace in
  let lookup e key :=
    VarLookupDict.getitem (EvalEnvironmentObj.namespace e h).1 key
      (EvalEnvironmentObj.namespace e h).2 in
  EvalEnvironmentObj.add_outer_namespace env' namespace = env'
  ∧ namespace ∈ EvalEnvironmentObj._namespaces env'
  ∧ (∃ rest, EvalEnvironmentObj._namespaces env'
             = EvalEnvironmentObj._namespaces env ++ rest)
  ∧ (NoDup (EvalEnvironmentObj._namespaces env) →
     NoDup (EvalEnvironmentObj._namespaces env'))
  ∧ (∀ key v, lookup env key = Ok v → lookup env' key = Ok v)
  ∧ (∀ key, lookup env key = Raise (KeyError key) →
       lookup env' key =
         match VarLookupDict.dict_get h namespace key with
         | Some v => Ok v
         | None => Raise (KeyError key)
         end)
  ∧ (EvalEnvironmentObj.eq env env' = true
     ↔ namespace ∈ EvalEnvironmentObj._namespaces env).
Proof.
  intros Henv Hns env' lookup. subst env' lookup.
  unfold EvalEnvironmentObj.add_outer_namespace, EvalEnvironmentObj._namespace_ids,
    EvalEnvironmentObj.namespace.
  destruct (decide (namespace ∈ EvalEnvironmentObj._namespaces env)) as [Hin|Hin].
  - (* the namespace is already one of the environment *)
    rewrite !(bool_decide_eq_true_2 _ Hin). cbv iota.
    rewrite ?(bool_decide_eq_true_2 _ Hin).
    split; [done|]. split; [done|]. split; [exists []; by rewrite app_nil_r|].
    split; [done|]. split; [done|]. split.
    + intros key. rewrite getitem_init by done. intros Hnone. rewrite Hnone.
      rewrite getitem_loop_KeyError in Hnone. by rewrite (Hnone namespace Hin).
    + unfold EvalEnvironmentObj.eq.
      by rewrite !bool_decide_eq_true_2.
  - rewrite !(bool_decide_eq_false_2 _ Hin). cbv iota.
    cbn [EvalEnvironmentObj._namespaces EvalEnvironmentObj.flags].
    assert (∀ d, d ∈ EvalEnvironmentObj._namespaces env ++ [namespace] →
                 is_Some (h !! d)) as Henv'.
    { intros d [Hd| ->%list_elem_of_singleton]%elem_of_app; auto. }
    split; [|split; [|split; [|split; [|split; [|split]]]]].
    + rewrite bool_decide_eq_true_2; [done|]. set_solver.
    + set_solver.
    + by exists [namespace].
    + intros Hnodup. apply NoDup_app. split; [done|].
      split; [|apply NoDup_singleton].
      intros d Hd ->%list_elem_of_singleton. done.
    + intros key v. rewrite !getitem_init by done.
      rewrite getitem_loop_app. by intros ->.
    + intros key. rewrite !getitem_init by done.
      rewrite getitem_loop_app. intros ->. simpl.
      by destruct (VarLookupDict.dict_get h namespace key).
    + unfold EvalEnvironmentObj.eq, EvalEnvironmentObj._namespace_ids.
      cbn [EvalEnvironmentObj._namespaces EvalEnvironmentObj.flags].
      split; [|done]. intros [_ Heq%bool_decide_eq_true]%andb_true_iff.
      apply (f_equal length) in Heq. rewrite length_app in Heq. simpl in Heq. lia.
Qed.

End AddOuterNamespace.

(** [test_EvalEnvironment_add_outer_namespace]: the environment resolves
    ["a"] to 1; after adding [{"a": 10, "b": 2}] it still does, and ["b"] is
    2. *)
Lemma add_outer_namespace_spec_witness :
  let h : VarLookupDict.Heap Z :=
    {[ 0 := {[ "a" := 1%Z ]}; 1 := {[ "a" := 10%Z; "b" := 2%Z ]} ]} in
  let env := EvalEnvironmentObj.mk [0] 0 in
  let env' := EvalEnvironmentObj.add_outer_namespace env 1 in
  VarLookupDict.getitem (EvalEnvironmentObj.namespace env' h).1 "a"
    (EvalEnvironmentObj.namespace env' h).2 = Ok 1%Z
  ∧ VarLookupDict.getitem (EvalEnvironmentObj.namespace env' h).1 "b"
      (EvalEnvironmentObj.namespace env' h).2 = Ok 2%Z
  ∧ EvalEnvironmentObj.add_outer_namespace env' 1 = env'.
Proof.
  intros h env env'.
  assert (Henv : ∀ d, d ∈ EvalEnvironmentObj._namespaces env → is_Some (h !! d)).
  { intros d Hd. apply elem_of_cons in Hd as [->|Hd].
    - eexists. reflexivity.
    - by apply elem_of_nil in Hd. }
  assert (Hns : is_Some (h !! 1)) by (eexists; reflexivity).
  destruct (add_outer_namespace_spec env 1 h Henv Hns)
    as (Hidem & _ & _ & _ & Hkeep & Hnew & _).
  split; [|split].
  - apply Hkeep. reflexivity.
  - rewrite Hnew; reflexivity.
  - exact Hidem.
Defined.
